(** * Control-flow graph construction of [mycfg.py]

    A shallow embedding of the three passes of [src/mycfg/mycfg.py]

      - [get_basic_blocks]  (the block partitioner),
      - [labels2blocks]     (the label resolver),
      - [get_label_alias] and [create_cfg] (the graph builder),

    followed by the properties of the specification that concern them.

    Instructions are JSON objects in the source.  Only three keys are ever
    read: ['op'], ['label'] and ['labels'].  A record of three optional
    fields is therefore the part of a Python [dict] the program can observe:
    [None] means that the key is absent, which the source tests with
    ['op' in instr] and ['label' in instr]. *)

From Stdlib Require Import List String Ascii Arith Lia Bool DecimalString.
From Stdlib Require DecimalNat.
Import ListNotations.
Local Open Scope string_scope.
Local Open Scope list_scope.

Set Implicit Arguments.

(** ** Python exceptions, results and a few builtins *)

Module Py.

Inductive exn : Type :=
| IndexError
| KeyError.

Inductive res (A : Type) : Type :=
| Ok (a : A)
| Raise (e : exn).

Arguments Ok {A} a.
Arguments Raise {A} e.

Definition bind {A B : Type} (c : res A) (k : A -> res B) : res B :=
  match c with
  | Ok a => k a
  | Raise e => Raise e
  end.

(** A [for] loop whose body may raise: the state is threaded from left to
    right and the first exception aborts the loop. *)
Fixpoint for_each {S X : Type} (body : S -> X -> res S) (xs : list X) (s : S)
  : res S :=
  match xs with
  | [] => Ok s
  | x :: xs' => bind (body s x) (for_each body xs')
  end.

(** [str(n)] for a non-negative integer. *)
Definition str (n : nat) : string := NilZero.string_of_uint (Nat.to_uint n).

(** [list(enumerate(xs))]. *)
Definition enumerate {X : Type} (xs : list X) : list (nat * X) :=
  combine (seq 0 (List.length xs)) xs.

(** [xs[-1]], which raises [IndexError] on the empty list ([None] here). *)
Fixpoint last {X : Type} (xs : list X) : option X :=
  match xs with
  | [] => None
  | [x] => Some x
  | _ :: xs' => last xs'
  end.

End Py.

Notation "x <- c ;; k" := (Py.bind c (fun x => k))
  (at level 61, c at next level, right associativity).

(** ** Insertion-ordered dictionaries

    [collections.OrderedDict] and the builtin [dict] both keep their keys in
    the order of first insertion; assigning to a key that is already present
    replaces the value and leaves the key where it is. *)

Module OD.

Section Dict.

Variables K V : Type.
Variable eqb : K -> K -> bool.

Definition t : Type := list (K * V).

Definition keys (d : t) : list K := map fst d.

Fixpoint get (d : t) (k : K) : option V :=
  match d with
  | [] => None
  | (k', v) :: d' => if eqb k' k then Some v else get d' k
  end.

(** [d[k] = v] *)
Fixpoint set (d : t) (k : K) (v : V) : t :=
  match d with
  | [] => [(k, v)]
  | (k', v') :: d' =>
      if eqb k' k then (k', v) :: d' else (k', v') :: set d' k v
  end.

End Dict.

End OD.

(** ** Instructions *)

Record instr : Type := mkInstr {
  op : option string;            (* instr['op'] *)
  label : option string;         (* instr['label'] *)
  labels : option (list string)  (* instr['labels'] *)
}.

Definition block : Type := list instr.

(** A tuple of label names, the key type of the label map and of the CFG. *)
Definition tuple : Type := list string.

Definition tuple_eqb (a b : tuple) : bool :=
  if list_eq_dec string_dec a b then true else false.

Definition TERMINATOR_OPS : list string := ["jmp"; "br"; "ret"].

(** [x in xs] on a tuple or list of strings. *)
Definition str_in (x : string) (xs : list string) : bool :=
  existsb (String.eqb x) xs.

(** ** The block partitioner: [get_basic_blocks] *)

(** One iteration of the loop, on the pair [(basic_blocks, block)]. *)
Definition bb_step (st : list block * block) (i : instr) : list block * block :=
  let '(basic_blocks, blk) := st in
  let '(basic_blocks, blk) :=
    match op i with
    | Some o =>
        let blk := blk ++ [i] in
        if str_in o TERMINATOR_OPS
        then (basic_blocks ++ [blk], [])
        else (basic_blocks, blk)
    | None => (basic_blocks, blk)
    end in
  match label i with
  | Some _ =>
      match blk with
      | [] => (basic_blocks, blk ++ [i])
      | _ :: _ => (basic_blocks ++ [blk], [i])
      end
  | None => (basic_blocks, blk)
  end.

(** The [if block:] after the loop. *)
Definition bb_flush (st : list block * block) : list block :=
  let '(basic_blocks, blk) := st in
  match blk with
  | [] => basic_blocks
  | _ :: _ => basic_blocks ++ [blk]
  end.

Definition get_basic_blocks (instructions : list instr) : list block :=
  bb_flush (fold_left bb_step instructions ([], [])).

(** ** The label resolver: [labels2blocks] *)

Definition label_map : Type := OD.t tuple block.

Record l2b_state : Type := mkL2B {
  label_block_map : label_map;
  unlabeled_index : nat;
  carry_list : list string
}.

Definition l2b_init : l2b_state :=
  {| label_block_map := []; unlabeled_index := 0; carry_list := [] |}.

(** One iteration of the loop.  [block[0]] raises on an empty block. *)
Definition l2b_step (st : l2b_state) (blk : block) : Py.res l2b_state :=
  match blk with
  | [] => Py.Raise Py.IndexError
  | first_instr :: rest =>
      let '(lab, body, index) :=
        match label first_instr with
        | Some l => (l, rest, unlabeled_index st)
        | None =>
            (String.append "block" (Py.str (unlabeled_index st)),
             blk,
             S (unlabeled_index st))
        end in
      match body with
      | _ :: _ =>
          Py.Ok {| label_block_map :=
                     OD.set tuple_eqb (label_block_map st)
                            (carry_list st ++ [lab]) body;
                   unlabeled_index := index;
                   carry_list := [] |}
      | [] =>
          Py.Ok {| label_block_map := label_block_map st;
                   unlabeled_index := index;
                   carry_list := carry_list st ++ [lab] |}
      end
  end.

Definition l2b_loop (basic_blocks : list block) (st : l2b_state)
  : Py.res l2b_state :=
  Py.for_each l2b_step basic_blocks st.

Definition labels2blocks (basic_blocks : list block) : Py.res label_map :=
  st <- l2b_loop basic_blocks l2b_init ;;
  Py.Ok (label_block_map st).

(** ** The graph builder: [get_label_alias] and [create_cfg] *)

(** The first key that contains [l]; falling off the end of the loop returns
    Python's [None], which is [None] here as well. *)
Definition get_label_alias (m : label_map) (l : string) : option tuple :=
  find (fun label_set => str_in l label_set) (OD.keys m).

Definition START : tuple := ["START"].
Definition TERM : tuple := ["TERM"].

(** An element of a successor list: a tuple, or the [None] that
    [get_label_alias] returned. *)
Definition succ : Type := option tuple.

Definition cfg_map : Type := OD.t tuple (list succ).

(** Lines 99 to 102: the successor list of a block that does not end in a
    terminator.  The index [i + 1] is in range where it is used. *)
Definition fall_through (m : label_map) (i : nat) : list succ :=
  let dest :=
    if Nat.ltb (i + 1) (List.length m)
    then [Some (nth (i + 1) (OD.keys m) TERM)]
    else [] in
  match dest with
  | [] => [Some TERM]
  | _ :: _ => dest
  end.

(** The [match] of lines 90 to 96 on a terminator opcode [o]. *)
Definition terminator_dest (m : label_map) (o : string) (last_instr : instr)
  : Py.res (list succ) :=
  if String.eqb o "jmp" then
    match labels last_instr with
    | None => Py.Raise Py.KeyError
    | Some [] => Py.Raise Py.IndexError
    | Some (l :: _) => Py.Ok [get_label_alias m l]
    end
  else if String.eqb o "br" then
    match labels last_instr with
    | None => Py.Raise Py.KeyError
    | Some ls => Py.Ok (map (get_label_alias m) ls)
    end
  else if String.eqb o "ret" then Py.Ok [Some TERM]
  else Py.Ok [].

(** The value assigned to [cfg[label]] by iteration [i] of the loop. *)
Definition block_dest (m : label_map) (i : nat) (blk : block)
  : Py.res (list succ) :=
  match Py.last blk with
  | None => Py.Raise Py.IndexError
  | Some last_instr =>
      match op last_instr with
      | Some o =>
          if str_in o TERMINATOR_OPS
          then terminator_dest m o last_instr
          else Py.Ok (fall_through m i)
      | None => Py.Ok (fall_through m i)
      end
  end.

Definition cfg_step (m : label_map) (cfg : cfg_map)
           (e : nat * (tuple * block)) : Py.res cfg_map :=
  let '(i, (lab, blk)) := e in
  dest <- block_dest m i blk ;;
  Py.Ok (OD.set tuple_eqb cfg lab dest).

Definition create_cfg (m : label_map) : Py.res cfg_map :=
  let cfg : cfg_map :=
    match OD.keys m with
    | k :: _ => OD.set tuple_eqb [] START [Some k]
    | [] => OD.set tuple_eqb [] START [Some TERM]
    end in
  Py.for_each (cfg_step m) (Py.enumerate m) cfg.

Definition cfg_get (cfg : cfg_map) (k : tuple) : option (list succ) :=
  OD.get tuple_eqb cfg k.

(** ** Vocabulary of the specification *)

(** The two instruction shapes of the data model: an Operation carries an
    opcode and no label, a Label marker a label and no opcode. *)
Definition is_operation (i : instr) : bool :=
  match op i, label i with
  | Some _, None => true
  | _, _ => false
  end.

Definition is_label_marker (i : instr) : bool :=
  match op i, label i with
  | None, Some _ => true
  | _, _ => false
  end.

Definition one_shape (i : instr) : bool :=
  is_operation i || is_label_marker i.

(** Instructions of the scenarios. *)
Definition Op (o : string) : instr :=
  {| op := Some o; label := None; labels := None |}.
Definition Jump (o : string) (targets : list string) : instr :=
  {| op := Some o; label := None; labels := Some targets |}.
Definition Label (l : string) : instr :=
  {| op := None; label := Some l; labels := None |}.

(** A block in which no instruction after the first is a Label marker. *)
Definition markers_front (b : block) : Prop :=
  Forall (fun i => is_label_marker i = false) (tl b).

(** The loop invariant of the partitioner: completed blocks are non-empty,
    and neither they nor the accumulator hold a Label marker after their
    first instruction. *)
Definition bb_inv (st : list block * block) : Prop :=
  Forall (fun b => b <> [] /\ markers_front b) (fst st) /\ markers_front (snd st).

(** The [OrderedDict] invariant: a key occurs once. *)
Definition od_wf {V : Type} (d : OD.t tuple V) : Prop := NoDup (OD.keys d).

(** A terminator Operation: the test of lines 88 and 89. *)
Definition is_terminator (i : instr) : bool :=
  match op i with
  | Some o => str_in o TERMINATOR_OPS
  | None => false
  end.

(** The label names that [create_cfg] looks up for a last instruction:
    [labels[0]] of a ['jmp'], every element of [labels] of a ['br']. *)
Definition jump_targets (last_instr : instr) : list string :=
  match op last_instr, labels last_instr with
  | Some o, Some ls =>
      if String.eqb o "jmp" then firstn 1 ls
      else if String.eqb o "br" then ls
      else []
  | _, _ => []
  end.

(** A label name that some key of the map contains. *)
Definition resolves (m : label_map) (l : string) : bool :=
  existsb (fun label_set => str_in l label_set) (OD.keys m).

Definition targets_resolve (m : label_map) : bool :=
  forallb (fun e : tuple * block =>
             match Py.last (snd e) with
             | Some last_instr => forallb (resolves m) (jump_targets last_instr)
             | None => true
             end) m.

(** The inputs on which no statement of [create_cfg] raises: every body has
    a last instruction, a final ['jmp'] has a non-empty ['labels'] and a
    final ['br'] has a ['labels']. *)
Definition entry_runs (blk : block) : bool :=
  match Py.last blk with
  | None => false
  | Some last_instr =>
      match op last_instr with
      | Some o =>
          if String.eqb o "jmp" then
            match labels last_instr with
            | Some (_ :: _) => true
            | _ => false
            end
          else if String.eqb o "br" then
            match labels last_instr with
            | Some _ => true
            | None => false
            end
          else true
      | None => true
      end
  end.

Definition cfg_buildable (m : label_map) : bool :=
  forallb (fun e : tuple * block => entry_runs (snd e)) m.

(** A final ['br'] carries exactly two jump targets, as the data model
    requires. *)
Definition br_two_targets (m : label_map) : bool :=
  forallb (fun e : tuple * block =>
             match Py.last (snd e) with
             | Some last_instr =>
                 match op last_instr with
                 | Some o =>
                     if String.eqb o "br" then
                       match labels last_instr with
                       | Some [_; _] => true
                       | _ => false
                       end
                     else true
                 | None => true
                 end
             | None => true
             end) m.

(** The first Identity of the map in insertion order, [TERM] for the empty
    map. *)
Definition entry_node (m : label_map) : tuple :=
  match OD.keys m with
  | k :: _ => k
  | [] => TERM
  end.

(** The successor by position: the key at [i + 1], [TERM] past the end. *)
Definition next_node (m : label_map) (i : nat) : tuple :=
  match nth_error (OD.keys m) (i + 1) with
  | Some k => k
  | None => TERM
  end.


(** The claim on unresolved targets as the specification words it: a jump
    target that no key contains makes [create_cfg] fail. *)
Definition unresolved_target_fails (m : label_map) : Prop :=
  forall k blk last_instr l,
    In (k, blk) m -> Py.last blk = Some last_instr ->
    In l (jump_targets last_instr) -> resolves m l = false ->
    exists e, create_cfg m = Py.Raise e.

(** The claim on the number of successors as the specification words it,
    for every map whose jump targets resolve: a node other than [TERM] has
    one or two successors, two exactly for a block that ends in a ['br']. *)
Definition successor_arity (m : label_map) : Prop :=
  forall cfg k d,
    create_cfg m = Py.Ok cfg -> cfg_get cfg k = Some d -> k <> TERM ->
    (List.length d = 1 \/ List.length d = 2)
    /\ forall blk last_instr,
         In (k, blk) m -> Py.last blk = Some last_instr ->
         (List.length d = 2 <-> op last_instr = Some "br").

(** The claim on [START] as the specification words it, for every map. *)
Definition start_routing (m : label_map) : Prop :=
  exists cfg, create_cfg m = Py.Ok cfg
              /\ cfg_get cfg START = Some [Some (entry_node m)].

(** ['label' in instr] *)
Definition has_label (i : instr) : bool :=
  match label i with
  | Some _ => true
  | None => false
  end.

(** A label-only block: nothing is left of it once its label is stripped. *)
Definition is_label_only (blk : block) : bool :=
  match blk with
  | [i] => has_label i
  | _ => false
  end.

(** The label that iteration of [labels2blocks] determines for a block, the
    body it keeps and the counter it leaves, for a counter value [index]. *)
Definition block_label (index : nat) (blk : block) : string :=
  match blk with
  | first_instr :: _ =>
      match label first_instr with
      | Some l => l
      | None => String.append "block" (Py.str index)
      end
  | [] => String.append "block" (Py.str index)
  end.

Definition block_body (blk : block) : block :=
  match blk with
  | first_instr :: rest =>
      match label first_instr with
      | Some _ => rest
      | None => blk
      end
  | [] => []
  end.

Definition next_index (index : nat) (blk : block) : nat :=
  match blk with
  | first_instr :: _ =>
      match label first_instr with
      | Some _ => index
      | None => S index
      end
  | [] => index
  end.

(** The labels determined for a sequence of non-empty blocks, declared or
    synthesized, in order. *)
Fixpoint block_labels (index : nat) (bs : list block) : list string :=
  match bs with
  | [] => []
  | blk :: bs' =>
      block_label index blk :: block_labels (next_index index blk) bs'
  end.

(** The trailing label-only blocks: the longest suffix of label-only
    blocks. *)
Fixpoint trailing_label_only (bs : list block) : list block :=
  match bs with
  | [] => []
  | _ :: bs' =>
      if forallb is_label_only bs then bs else trailing_label_only bs'
  end.

(** Every label name held by the state of the resolver: the aliases of the
    keys, then the pending ones. *)
Definition aliases (st : l2b_state) : list string :=
  List.concat (OD.keys (label_block_map st)) ++ carry_list st.

(** The claim on trailing labels as the specification words it. *)
Definition trailing_dropped (bs trailing : list block) : Prop :=
  forall out l K,
    labels2blocks (bs ++ trailing) = Py.Ok out ->
    In l (block_labels 0 trailing) -> In K (OD.keys out) -> ~ In l K.

(** The claim on identity coverage as the specification words it. *)
Definition identity_coverage (instructions : list instr) : Prop :=
  forall out i l,
    labels2blocks (get_basic_blocks instructions) = Py.Ok out ->
    In i instructions -> is_label_marker i = true -> label i = Some l ->
    ~ In l (block_labels 0
              (trailing_label_only (get_basic_blocks instructions))) ->
    exists K, In K (OD.keys out) /\ In l K
              /\ forall K', In K' (OD.keys out) -> In l K' -> K' = K.

(** ** Rendering: [create_graphviz] and the main block *)

(** [xs[n]], which raises [IndexError] out of range. *)
Definition list_index {X : Type} (xs : list X) (n : nat) : Py.res X :=
  match nth_error xs n with
  | Some x => Py.Ok x
  | None => Py.Raise Py.IndexError
  end.

(** The calls that [create_graphviz] makes on the [graphviz] object, in
    order.  What the library prints for them ([dot.source]) is not part of
    this program. *)
Inductive dot_call : Type :=
| Digraph (name : string)
| dot_node (name : string)
| dot_edge (tail_name head_name : string) (edge_label : option string).

Section Graphviz.

(** Python's [str] on a node: a tuple of label names, or [None]. *)
Variable str : succ -> string.

(** The body of the first loop: [dot.node(str(label))]. *)
Definition gv_node_step (dot : list dot_call) (lab : tuple) : list dot_call :=
  dot ++ [dot_node (str (Some lab))].

(** The body of the second loop, lines 121 to 125. *)
Definition gv_edge_step (dot : list dot_call) (e : tuple * list succ)
  : Py.res (list dot_call) :=
  let '(lab, successor) := e in
  if Nat.eqb (List.length successor) 2 then
    s0 <- list_index successor 0 ;;
    s1 <- list_index successor 1 ;;
    Py.Ok (dot ++ [dot_edge (str (Some lab)) (str s0) (Some "T");
                   dot_edge (str (Some lab)) (str s1) (Some "F")])
  else
    s0 <- list_index successor 0 ;;
    Py.Ok (dot ++ [dot_edge (str (Some lab)) (str s0) None]).

Definition create_graphviz (function_name : string) (cfg : cfg_map)
  : Py.res (list dot_call) :=
  let dot := [Digraph function_name] in
  let dot := fold_left gv_node_step (OD.keys cfg) dot in
  let dot := dot ++ [dot_node (str (Some TERM))] in
  Py.for_each gv_edge_step cfg dot.

(** The edge calls of one CFG entry whose successor list is not empty. *)
Definition edge_calls (e : tuple * list succ) : list dot_call :=
  match snd e with
  | [t; f] => [dot_edge (str (Some (fst e))) (str t) (Some "T");
               dot_edge (str (Some (fst e))) (str f) (Some "F")]
  | s :: _ => [dot_edge (str (Some (fst e))) (str s) None]
  | [] => []
  end.

(** The edges of the CFG as pairs of rendered names. *)
Definition cfg_edges (cfg : cfg_map) : list (string * string) :=
  flat_map (fun e : tuple * list succ =>
              map (fun s => (str (Some (fst e)), str s)) (snd e)) cfg.

(** The pairs of names joined by the edge calls of a trace. *)
Definition drawn_edges (dot : list dot_call) : list (string * string) :=
  flat_map (fun c => match c with
                     | dot_edge t h _ => [(t, h)]
                     | _ => []
                     end) dot.

End Graphviz.

(** Lines 134 to 136, the passes that the main block chains for one
    function. *)
Definition function_cfg (instrs : list instr) : Py.res cfg_map :=
  let basic_blocks := get_basic_blocks instrs in
  label_block_map <- labels2blocks basic_blocks ;;
  create_cfg label_block_map.

(** ** Further vocabulary *)

(** The copies of an instruction that the partitioner keeps: one for its
    ['op'], one for its ['label']. *)
Definition kept_copies (i : instr) : list instr :=
  match op i with Some _ => [i] | None => [] end
  ++ match label i with Some _ => [i] | None => [] end.

(** A terminator Operation that carries no label. *)
Definition plain_terminator (i : instr) : bool :=
  is_terminator i && negb (has_label i).

(** Why a block [b1] stops where the block [b2] follows it. *)
Definition boundary (b1 b2 : block) : Prop :=
  (exists last_instr,
      Py.last b1 = Some last_instr /\ is_terminator last_instr = true)
  \/ (exists first_instr,
         hd_error b2 = Some first_instr /\ has_label first_instr = true).

Fixpoint boundaries (bs : list block) : Prop :=
  match bs with
  | b1 :: ((b2 :: _) as bs') => boundary b1 b2 /\ boundaries bs'
  | _ => True
  end.

(** The exception that iteration of [create_cfg] raises on a body, if
    any. *)
Definition entry_exn (blk : block) : option Py.exn :=
  match Py.last blk with
  | None => Some Py.IndexError
  | Some last_instr =>
      match op last_instr with
      | Some o =>
          if String.eqb o "jmp" then
            match labels last_instr with
            | None => Some Py.KeyError
            | Some [] => Some Py.IndexError
            | Some (_ :: _) => None
            end
          else if String.eqb o "br" then
            match labels last_instr with
            | None => Some Py.KeyError
            | Some _ => None
            end
          else None
      | None => None
      end
  end.

(** An instruction on which [create_cfg] does not raise when it ends a
    block. *)
Definition instr_runs (i : instr) : bool :=
  match op i with
  | Some o =>
      if String.eqb o "jmp" then
        match labels i with
        | Some (_ :: _) => true
        | _ => false
        end
      else if String.eqb o "br" then
        match labels i with
        | Some _ => true
        | None => false
        end
      else true
  | None => true
  end.

(** * Properties *)

Unset Implicit Arguments.

Arguments str_in : simpl never.

(** ** The block partitioner *)

Section Partitioner.

Lemma markers_front_snoc (b : block) (i : instr) :
  markers_front b -> is_label_marker i = false -> markers_front (b ++ [i]).
Proof.
  unfold markers_front. destruct b as [|x b]; simpl; intros Hb Hi.
  - constructor.
  - apply Forall_app; split; [exact Hb | constructor; [exact Hi | constructor]].
Qed.

Lemma op_not_marker (i : instr) (o : string) :
  op i = Some o -> is_label_marker i = false.
Proof. unfold is_label_marker. intros ->. reflexivity. Qed.

Lemma bb_inv_close (bbs : list block) (b : block) :
  Forall (fun b => b <> [] /\ markers_front b) bbs ->
  b <> [] -> markers_front b ->
  Forall (fun b => b <> [] /\ markers_front b) (bbs ++ [b]).
Proof.
  intros Hbbs Hne Hb. apply Forall_app; split; [exact Hbbs|].
  constructor; [split; assumption | constructor].
Qed.

Lemma bb_step_inv (st : list block * block) (i : instr) :
  bb_inv st -> bb_inv (bb_step st i).
Proof.
  destruct st as [bbs blk]. unfold bb_inv, bb_step. simpl. intros [Hbbs Hblk].
  assert (Hnil : markers_front []) by constructor.
  assert (Hone : markers_front [i]) by constructor.
  destruct (op i) as [o|] eqn:Hop.
  - pose proof (markers_front_snoc blk i Hblk (op_not_marker _ _ Hop)) as Hsnoc.
    assert (Hne : blk ++ [i] <> []) by (destruct blk; discriminate).
    destruct (str_in o TERMINATOR_OPS).
    + destruct (label i); simpl; split; auto using bb_inv_close.
    + destruct (label i); [|simpl; split; assumption].
      destruct (blk ++ [i]) as [|x b'] eqn:E; [congruence|].
      simpl; split; auto using bb_inv_close.
  - destruct (label i); [|simpl; split; assumption].
    destruct blk as [|x b']; simpl; split; auto.
    apply bb_inv_close; auto. discriminate.
Qed.

Lemma bb_loop_inv (instructions : list instr) (st : list block * block) :
  bb_inv st -> bb_inv (fold_left bb_step instructions st).
Proof.
  revert st. induction instructions as [|i rest IH]; simpl; intros st H.
  - exact H.
  - apply IH, bb_step_inv, H.
Qed.

Lemma bb_flush_inv (st : list block * block) :
  bb_inv st -> Forall (fun b => b <> [] /\ markers_front b) (bb_flush st).
Proof.
  destruct st as [bbs blk]. unfold bb_inv. simpl. intros [Hbbs Hblk].
  destruct blk as [|x b']; [exact Hbbs|].
  apply bb_inv_close; auto. discriminate.
Qed.

Lemma markers_front_nth (b : block) (k : nat) (i : instr) :
  markers_front b -> nth_error b k = Some i -> is_label_marker i = true -> k = 0.
Proof.
  unfold markers_front. destruct b as [|x b]; simpl.
  - destruct k; discriminate.
  - intros Hall Hk Hi. destruct k as [|k]; [reflexivity|]. simpl in Hk.
    apply nth_error_In in Hk. rewrite Forall_forall in Hall.
    rewrite (Hall _ Hk) in Hi. discriminate.
Qed.

Lemma markers_front_count (b : block) :
  markers_front b -> List.length (filter is_label_marker b) <= 1.
Proof.
  unfold markers_front. destruct b as [|x b]; simpl; [lia|]. intros Hall.
  assert (E : filter is_label_marker b = []).
  { induction Hall as [|y b Hy _ IH]; simpl; [reflexivity|]. now rewrite Hy. }
  destruct (is_label_marker x); simpl; rewrite E; simpl; lia.
Qed.

Lemma bb_step_concat (bbs : list block) (blk : block) (i : instr) :
  one_shape i = true ->
  List.concat (fst (bb_step (bbs, blk) i)) ++ snd (bb_step (bbs, blk) i)
  = (List.concat bbs ++ blk) ++ [i].
Proof.
  unfold one_shape, is_operation, is_label_marker, bb_step.
  destruct (op i) as [o|], (label i) as [l|]; simpl; try discriminate; intros _.
  - destruct (str_in o TERMINATOR_OPS); simpl.
    + rewrite concat_app. simpl. now rewrite !app_nil_r, app_assoc.
    + now rewrite app_assoc.
  - destruct blk as [|x b']; simpl.
    + now rewrite app_nil_r.
    + rewrite concat_app. simpl. now rewrite app_nil_r.
Qed.

Lemma bb_loop_concat (instructions : list instr) (st : list block * block) :
  Forall (fun i => one_shape i = true) instructions ->
  List.concat (fst (fold_left bb_step instructions st))
    ++ snd (fold_left bb_step instructions st)
  = (List.concat (fst st) ++ snd st) ++ instructions.
Proof.
  revert st. induction instructions as [|i rest IH]; simpl; intros st Hall.
  - now rewrite app_nil_r.
  - inversion Hall as [|? ? Hi Hrest]; subst.
    rewrite (IH _ Hrest). destruct st as [bbs blk].
    rewrite (bb_step_concat bbs blk i Hi). simpl. now rewrite <- !app_assoc.
Qed.

Lemma bb_flush_concat (st : list block * block) :
  List.concat (bb_flush st) = List.concat (fst st) ++ snd st.
Proof.
  destruct st as [bbs [|x b']]; simpl.
  - now rewrite app_nil_r.
  - rewrite concat_app. simpl. now rewrite app_nil_r.
Qed.

Lemma partition_concat (instructions : list instr) :
  Forall (fun i => one_shape i = true) instructions ->
  List.concat (get_basic_blocks instructions) = instructions.
Proof.
  intros Hall. unfold get_basic_blocks.
  rewrite bb_flush_concat, (bb_loop_concat _ _ Hall). reflexivity.
Qed.

Lemma partition_invariant (instructions : list instr) :
  Forall (fun b => b <> [] /\ markers_front b)
         (get_basic_blocks instructions).
Proof.
  unfold get_basic_blocks.
  assert (H0 : bb_inv ([], [])) by (split; constructor).
  exact (bb_flush_inv _ (bb_loop_inv instructions _ H0)).
Qed.

Lemma one_shape_label_marker (i : instr) :
  one_shape i = true -> has_label i = true -> is_label_marker i = true.
Proof.
  unfold one_shape, is_operation, is_label_marker, has_label.
  destruct (op i), (label i); simpl; congruence.
Qed.

(** C9.  Every block produced by [get_basic_blocks] is non-empty; a Label
    marker (an instruction with a ['label'] and no ['op']) that occurs in a
    block occupies its first position, and a block holds at most one Label
    marker.  This holds for every list of instructions.  When every
    instruction has exactly one of the two shapes, the same holds of every
    instruction that carries the key ['label']. *)
Theorem get_basic_blocks_nonempty_label_first (instructions : list instr) :
  Forall (fun b : block =>
            b <> []
            /\ (forall k i, nth_error b k = Some i ->
                            is_label_marker i = true -> k = 0)
            /\ List.length (filter is_label_marker b) <= 1)
         (get_basic_blocks instructions)
  /\ (Forall (fun i => one_shape i = true) instructions ->
      Forall (fun b : block =>
                forall k i, nth_error b k = Some i ->
                            has_label i = true -> k = 0)
             (get_basic_blocks instructions)).
Proof.
  pose proof (partition_invariant instructions) as H. split.
  - eapply Forall_impl; [|exact H]. simpl. intros b [Hne Hm].
    split; [exact Hne|]. split.
    + intros k i. now apply markers_front_nth.
    + now apply markers_front_count.
  - intros Hshape. pose proof (partition_concat instructions Hshape) as Hcat.
    rewrite Forall_forall in *. intros b Hb k i Hk Hl.
    destruct (H b Hb) as [_ Hm].
    apply (markers_front_nth b k i Hm Hk).
    apply one_shape_label_marker; [|exact Hl].
    apply Hshape. rewrite <- Hcat. apply in_concat.
    exists b. split; [exact Hb | exact (nth_error_In _ _ Hk)].
Qed.

Lemma get_basic_blocks_nonempty_label_first_witness :
  Forall (fun b : block =>
            forall k i, nth_error b k = Some i -> has_label i = true -> k = 0)
         [[Op "const"; Jump "jmp" ["L"]]; [Label "L"; Op "ret"]].
Proof.
  apply (get_basic_blocks_nonempty_label_first
           [Op "const"; Jump "jmp" ["L"]; Label "L"; Op "ret"]).
  repeat constructor.
Defined.

(** C10.  When every instruction is exactly one of the two shapes (an
    Operation or a Label marker), the concatenation of the blocks of
    [get_basic_blocks] is the input: nothing is lost, duplicated or
    reordered. *)
Theorem get_basic_blocks_concat (instructions : list instr) :
  Forall (fun i => one_shape i = true) instructions ->
  List.concat (get_basic_blocks instructions) = instructions.
Proof.
  exact (partition_concat instructions).
Qed.

Lemma get_basic_blocks_concat_witness :
  List.concat (get_basic_blocks
                 [Op "const"; Jump "jmp" ["L"]; Label "L"; Op "ret"])
  = [Op "const"; Jump "jmp" ["L"]; Label "L"; Op "ret"].
Proof.
  apply get_basic_blocks_concat.
  repeat constructor.
Defined.

End Partitioner.

(** ** Dictionaries *)

Section DictFacts.

Variables K V : Type.
Variable eqb : K -> K -> bool.
Hypothesis eqb_eq : forall a b, eqb a b = true <-> a = b.

Lemma od_eqb_refl (k : K) : eqb k k = true.
Proof. now apply eqb_eq. Qed.

Lemma od_eqb_neq (a b : K) : a <> b -> eqb a b = false.
Proof.
  intros Hne. destruct (eqb a b) eqn:E; [|reflexivity].
  apply eqb_eq in E. contradiction.
Qed.

Lemma od_get_set_same (d : OD.t K V) (k : K) (v : V) :
  OD.get eqb (OD.set eqb d k v) k = Some v.
Proof.
  induction d as [|[k' v'] d IH]; simpl.
  - now rewrite od_eqb_refl.
  - destruct (eqb k' k) eqn:E; simpl; rewrite E; [reflexivity | exact IH].
Qed.

Lemma od_get_set_other (d : OD.t K V) (k k' : K) (v : V) :
  k <> k' -> OD.get eqb (OD.set eqb d k v) k' = OD.get eqb d k'.
Proof.
  intros Hne. induction d as [|[k0 v0] d IH]; simpl.
  - now rewrite (od_eqb_neq k k' Hne).
  - destruct (eqb k0 k) eqn:E; simpl.
    + apply eqb_eq in E. subst k0. now rewrite (od_eqb_neq k k' Hne).
    + now rewrite IH.
Qed.

Lemma od_keys_set_in (d : OD.t K V) (k : K) (v : V) :
  In k (OD.keys d) -> OD.keys (OD.set eqb d k v) = OD.keys d.
Proof.
  induction d as [|[k0 v0] d IH]; simpl; [contradiction|].
  intros [E | Hin].
  - subst k0. now rewrite od_eqb_refl.
  - destruct (eqb k0 k); simpl; [reflexivity | now rewrite IH].
Qed.

Lemma od_keys_set_notin (d : OD.t K V) (k : K) (v : V) :
  ~ In k (OD.keys d) -> OD.keys (OD.set eqb d k v) = OD.keys d ++ [k].
Proof.
  induction d as [|[k0 v0] d IH]; simpl; [reflexivity|].
  intros Hnot. rewrite od_eqb_neq by tauto. simpl. rewrite IH by tauto.
  reflexivity.
Qed.

Lemma od_keys_set (d : OD.t K V) (k k' : K) (v : V) :
  In k' (OD.keys (OD.set eqb d k v)) <-> k' = k \/ In k' (OD.keys d).
Proof.
  induction d as [|[k0 v0] d IH]; simpl.
  - intuition congruence.
  - destruct (eqb k0 k) eqn:E; simpl.
    + apply eqb_eq in E. subst k0. intuition congruence.
    + rewrite IH. intuition congruence.
Qed.

Lemma od_set_wf (d : OD.t K V) (k : K) (v : V) :
  NoDup (OD.keys d) -> NoDup (OD.keys (OD.set eqb d k v)).
Proof.
  induction d as [|[k0 v0] d IH]; simpl; intros Hnd.
  - constructor; [intros [] | constructor].
  - inversion Hnd as [|? ? Hnot Hnd']; subst.
    destruct (eqb k0 k) eqn:E; simpl.
    + constructor; assumption.
    + constructor; [|now apply IH].
      rewrite od_keys_set. intros [E' | Hin]; [|contradiction].
      subst k0. rewrite od_eqb_refl in E. discriminate.
Qed.

Lemma od_get_in (d : OD.t K V) (k : K) (v : V) :
  NoDup (OD.keys d) -> In (k, v) d -> OD.get eqb d k = Some v.
Proof.
  induction d as [|[k0 v0] d IH]; simpl; [contradiction|].
  intros Hnd Hin. inversion Hnd as [|? ? Hnot Hnd']; subst.
  destruct Hin as [E | Hin].
  - inversion E; subst. now rewrite od_eqb_refl.
  - rewrite od_eqb_neq; [now apply IH|].
    intros ->. apply Hnot. unfold OD.keys.
    change k with (fst (k, v)). now apply in_map.
Qed.

End DictFacts.

Lemma tuple_eqb_eq (a b : tuple) : tuple_eqb a b = true <-> a = b.
Proof.
  unfold tuple_eqb. destruct (list_eq_dec string_dec a b); split; congruence.
Qed.

Lemma str_in_In (x : string) (xs : list string) :
  str_in x xs = true <-> In x xs.
Proof.
  unfold str_in. rewrite existsb_exists. split.
  - intros [y [Hin E]]. apply String.eqb_eq in E. now subst.
  - intros Hin. exists x. split; [exact Hin | apply String.eqb_refl].
Qed.

(** ** Python builtins *)

Section Builtins.

Variable X : Type.

Lemma enumerate_from_In (xs : list X) (s i : nat) (x : X) :
  In (i, x) (combine (seq s (List.length xs)) xs) <->
  s <= i /\ nth_error xs (i - s) = Some x.
Proof.
  revert s. induction xs as [|y xs IH]; simpl; intros s.
  - split; [contradiction|]. intros [_ H]. destruct (i - s); discriminate.
  - rewrite IH. split.
    + intros [E | [Hle Hn]].
      * inversion E; subst. split; [lia|]. now rewrite Nat.sub_diag.
      * split; [lia|]. replace (i - s) with (S (i - S s)) by lia. exact Hn.
    + intros [Hle Hn]. destruct (i - s) as [|j] eqn:E.
      * left. simpl in Hn. inversion Hn; subst. f_equal. lia.
      * right. split; [lia|]. simpl in Hn. replace (i - S s) with j by lia.
        exact Hn.
Qed.

Lemma enumerate_In (xs : list X) (i : nat) (x : X) :
  In (i, x) (Py.enumerate xs) <-> nth_error xs i = Some x.
Proof.
  unfold Py.enumerate. rewrite enumerate_from_In, Nat.sub_0_r.
  split; [tauto | split; [lia | assumption]].
Qed.

Lemma enumerate_snd (xs : list X) : map snd (Py.enumerate xs) = xs.
Proof.
  unfold Py.enumerate. generalize 0.
  induction xs as [|y xs IH]; simpl; intros s; [reflexivity|].
  now rewrite IH.
Qed.

Lemma last_app_one (xs : list X) (x : X) : Py.last (xs ++ [x]) = Some x.
Proof.
  induction xs as [|y xs IH]; simpl; [reflexivity|].
  destruct (xs ++ [x]) eqn:E; [destruct xs; discriminate | exact IH].
Qed.

Lemma last_none (xs : list X) : Py.last xs = None <-> xs = [].
Proof.
  split; [|now intros ->].
  induction xs as [|y xs IH]; [reflexivity|]. simpl.
  destruct xs; [discriminate|]. intros H. apply IH in H. discriminate.
Qed.

End Builtins.

(** ** The graph builder *)

Section Builder.

Variable m : label_map.

Lemma block_dest_runs (i : nat) (blk : block) :
  entry_runs blk = true -> exists d, block_dest m i blk = Py.Ok d.
Proof.
  unfold entry_runs, block_dest, terminator_dest.
  destruct (Py.last blk) as [li|]; [|discriminate].
  destruct (op li) as [o|]; [|eauto].
  destruct (String.eqb o "jmp").
  - destruct (labels li) as [[|l ls]|]; try discriminate.
    destruct (str_in o TERMINATOR_OPS); eauto.
  - destruct (String.eqb o "br").
    + destruct (labels li); [|discriminate].
      destruct (str_in o TERMINATOR_OPS); eauto.
    + destruct (str_in o TERMINATOR_OPS), (String.eqb o "ret"); eauto.
Qed.

Lemma block_dest_ok_runs (i : nat) (blk : block) (d : list succ) :
  block_dest m i blk = Py.Ok d -> entry_runs blk = true.
Proof.
  unfold entry_runs, block_dest, terminator_dest.
  destruct (Py.last blk) as [li|]; [|discriminate].
  destruct (op li) as [o|]; [|reflexivity].
  assert (Hterm : String.eqb o "jmp" = true \/ String.eqb o "br" = true ->
                  str_in o TERMINATOR_OPS = true).
  { unfold str_in, TERMINATOR_OPS. simpl. intros [-> | ->]; simpl;
      [reflexivity | apply orb_true_r]. }
  destruct (String.eqb o "jmp") eqn:Ej.
  - rewrite Hterm by tauto.
    destruct (labels li) as [[|l ls]|]; [discriminate | reflexivity | discriminate].
  - destruct (String.eqb o "br") eqn:Eb; [|reflexivity].
    rewrite Hterm by tauto. destruct (labels li); [reflexivity | discriminate].
Qed.

(** The loop of [create_cfg] from a dictionary [cfg0], over a part [es] of
    the enumerated items. *)
Lemma cfg_loop_spec (es : list (nat * (tuple * block))) (cfg0 : cfg_map) :
  (forall e, In e es -> entry_runs (snd (snd e)) = true) ->
  exists cfg,
    Py.for_each (cfg_step m) es cfg0 = Py.Ok cfg
    /\ (forall k, ~ In k (map (fun e => fst (snd e)) es) ->
                  cfg_get cfg k = cfg_get cfg0 k)
    /\ (NoDup (map (fun e => fst (snd e)) es) ->
        forall i k blk, In (i, (k, blk)) es ->
          exists d, block_dest m i blk = Py.Ok d /\ cfg_get cfg k = Some d)
    /\ (forall k, In k (OD.keys cfg) <->
                  In k (OD.keys cfg0) \/ In k (map (fun e => fst (snd e)) es)).
Proof.
  revert cfg0. induction es as [|[i [k blk]] es IH]; intros cfg0 Hruns.
  - exists cfg0. simpl. repeat split; try tauto.
  - destruct (block_dest_runs i blk (Hruns _ (or_introl eq_refl))) as [d Hd].
    destruct (IH (OD.set tuple_eqb cfg0 k d)) as (cfg & Hfold & Hout & Hin & Hkeys).
    { intros e He. apply Hruns. now right. }
    exists cfg. simpl. rewrite Hd. simpl. split; [exact Hfold|].
    split; [|split].
    + intros k' Hnot. rewrite Hout by tauto. unfold cfg_get.
      apply od_get_set_other; [exact tuple_eqb_eq | tauto].
    + intros Hnd i' k' blk' [E | Hin'].
      * inversion E; subst. exists d. split; [exact Hd|].
        inversion Hnd as [|? ? Hnot _]; subst. rewrite Hout by exact Hnot.
        unfold cfg_get. apply od_get_set_same. exact tuple_eqb_eq.
      * inversion Hnd; subst. eapply Hin; eassumption.
    + intros k'. rewrite Hkeys, (od_keys_set _ _ tuple_eqb tuple_eqb_eq).
      intuition congruence.
Qed.

Lemma enumerate_keys : map (fun e : nat * (tuple * block) => fst (snd e))
                           (Py.enumerate m) = OD.keys m.
Proof.
  unfold OD.keys. rewrite <- (enumerate_snd _ m) at 2. now rewrite map_map.
Qed.

Lemma cfg_buildable_entry (k : tuple) (blk : block) :
  cfg_buildable m = true -> In (k, blk) m -> entry_runs blk = true.
Proof.
  unfold cfg_buildable. rewrite forallb_forall. intros H Hin.
  exact (H _ Hin).
Qed.

(** What a successful [create_cfg] returns, entry by entry. *)
Lemma create_cfg_spec :
  od_wf m -> cfg_buildable m = true ->
  exists cfg,
    create_cfg m = Py.Ok cfg
    /\ (forall i k blk, nth_error m i = Some (k, blk) ->
          exists d, block_dest m i blk = Py.Ok d /\ cfg_get cfg k = Some d)
    /\ (~ In START (OD.keys m) ->
        cfg_get cfg START = Some [Some (entry_node m)])
    /\ (forall k, In k (OD.keys cfg) <-> k = START \/ In k (OD.keys m)).
Proof.
  intros Hwf Hb. unfold create_cfg.
  set (cfg0 := match OD.keys m with
               | k :: _ => OD.set tuple_eqb [] START [Some k]
               | [] => OD.set tuple_eqb [] START [Some TERM]
               end).
  assert (H0 : cfg0 = [(START, [Some (entry_node m)])]).
  { unfold cfg0, entry_node. destruct (OD.keys m); reflexivity. }
  destruct (cfg_loop_spec (Py.enumerate m) cfg0) as (cfg & Hfold & Hout & Hin & Hkeys).
  { intros [i [k blk]] He. apply enumerate_In in He. simpl.
    apply (cfg_buildable_entry k blk Hb). eapply nth_error_In, He. }
  rewrite enumerate_keys in Hout, Hin, Hkeys.
  exists cfg. split; [exact Hfold|]. split; [|split].
  - intros i k blk Hn. apply (Hin Hwf). now apply enumerate_In.
  - intros Hnot. rewrite (Hout _ Hnot), H0. reflexivity.
  - intros k. rewrite Hkeys, H0. simpl. intuition congruence.
Qed.

Lemma cfg_loop_ok_runs (es : list (nat * (tuple * block))) (cfg0 cfg : cfg_map) :
  Py.for_each (cfg_step m) es cfg0 = Py.Ok cfg ->
  forall e, In e es -> entry_runs (snd (snd e)) = true.
Proof.
  revert cfg0. induction es as [|[i [k blk]] es IH]; intros cfg0; simpl.
  - intros _ e [].
  - destruct (block_dest m i blk) as [d|] eqn:Hd; simpl; [|discriminate].
    intros Hfold e [E | Hin].
    + subst e. simpl. exact (block_dest_ok_runs i blk d Hd).
    + eapply IH; eassumption.
Qed.

(** [create_cfg] returns exactly on the buildable maps. *)
Lemma create_cfg_ok_buildable (cfg : cfg_map) :
  create_cfg m = Py.Ok cfg -> cfg_buildable m = true.
Proof.
  unfold create_cfg, cfg_buildable. intros Hfold.
  apply forallb_forall. intros [k blk] Hin.
  destruct (In_nth_error _ _ Hin) as [i Hi].
  apply enumerate_In in Hi.
  exact (cfg_loop_ok_runs _ _ _ Hfold _ Hi).
Qed.

End Builder.

Section BuilderCases.

Variable m : label_map.

Lemma fall_through_next (i : nat) : fall_through m i = [Some (next_node m i)].
Proof.
  unfold fall_through, next_node.
  assert (Hlen : List.length (OD.keys m) = List.length m)
    by apply length_map.
  destruct (Nat.ltb (i + 1) (List.length m)) eqn:E.
  - apply Nat.ltb_lt in E. rewrite <- Hlen in E.
    now rewrite (nth_error_nth' _ TERM E).
  - apply Nat.ltb_ge in E. rewrite <- Hlen in E.
    apply nth_error_None in E. now rewrite E.
Qed.

Lemma terminator_ops_cases (o : string) :
  str_in o TERMINATOR_OPS = true -> o = "jmp" \/ o = "br" \/ o = "ret".
Proof.
  rewrite str_in_In. simpl. intuition.
Qed.

(** The four ways in which an iteration of the loop computes [dest]. *)
Lemma block_dest_cases (i : nat) (blk : block) (last_instr : instr)
      (d : list succ) :
  block_dest m i blk = Py.Ok d -> Py.last blk = Some last_instr ->
  (is_terminator last_instr = false /\ d = [Some (next_node m i)])
  \/ (op last_instr = Some "jmp" /\
      exists l ls, labels last_instr = Some (l :: ls)
                   /\ d = [get_label_alias m l])
  \/ (op last_instr = Some "br" /\
      exists ls, labels last_instr = Some ls
                 /\ d = map (get_label_alias m) ls)
  \/ (op last_instr = Some "ret" /\ d = [Some TERM]).
Proof.
  unfold block_dest, is_terminator. intros Hd Hlast. rewrite Hlast in Hd.
  destruct (op last_instr) as [o|].
  - destruct (str_in o TERMINATOR_OPS) eqn:Ht.
    + right. unfold terminator_dest in Hd.
      destruct (terminator_ops_cases o Ht) as [-> | [-> | ->]]; simpl in Hd.
      * left. split; [reflexivity|].
        destruct (labels last_instr) as [[|l ls]|]; try discriminate.
        inversion Hd. eauto.
      * right; left. split; [reflexivity|].
        destruct (labels last_instr) as [ls|]; try discriminate.
        inversion Hd. eauto.
      * right; right. split; [reflexivity|]. now inversion Hd.
    + left. split; [reflexivity|]. rewrite fall_through_next in Hd.
      now inversion Hd.
  - left. split; [reflexivity|]. rewrite fall_through_next in Hd.
    now inversion Hd.
Qed.

Lemma get_label_alias_none (l : string) :
  get_label_alias m l = None <-> resolves m l = false.
Proof.
  unfold get_label_alias, resolves. split.
  - intros Hnone. destruct (existsb _ _) eqn:E; [|reflexivity].
    apply existsb_exists in E. destruct E as [K [Hin HK]].
    rewrite (find_none _ _ Hnone K Hin) in HK. discriminate.
  - intros Hex. destruct (find _ _) as [K|] eqn:E; [|reflexivity].
    apply find_some in E. destruct E as [Hin HK].
    assert (Ht : existsb (fun label_set => str_in l label_set) (OD.keys m)
                 = true)
      by (apply existsb_exists; eauto).
    rewrite Ht in Hex. discriminate.
Qed.

Lemma get_label_alias_some (l : string) :
  resolves m l = true ->
  exists K, get_label_alias m l = Some K /\ In K (OD.keys m) /\ In l K.
Proof.
  intros Hr. destruct (get_label_alias m l) as [K|] eqn:E.
  - exists K. split; [reflexivity|]. unfold get_label_alias in E.
    apply find_some in E. now rewrite str_in_In in E.
  - apply get_label_alias_none in E. congruence.
Qed.

(** On a final ['jmp'] or ['br'], [dest] is the alias lookup of the jump
    targets, position by position. *)
Lemma block_dest_targets (i : nat) (blk : block) (last_instr : instr)
      (d : list succ) :
  block_dest m i blk = Py.Ok d -> Py.last blk = Some last_instr ->
  jump_targets last_instr <> [] ->
  d = map (get_label_alias m) (jump_targets last_instr).
Proof.
  intros Hd Hlast Hne.
  destruct (block_dest_cases i blk last_instr d Hd Hlast)
    as [[Ht E] | [[Ho (l & ls & Hl & E)] | [[Ho (ls & Hl & E)] | [Ho E]]]];
    unfold jump_targets, is_terminator in *.
  - exfalso. apply Hne. destruct (op last_instr) as [o|]; [|reflexivity].
    destruct (labels last_instr); [|reflexivity].
    destruct (String.eqb o "jmp") eqn:Ej.
    + apply String.eqb_eq in Ej. subst o. discriminate.
    + destruct (String.eqb o "br") eqn:Eb; [|reflexivity].
      apply String.eqb_eq in Eb. subst o. discriminate.
  - rewrite Ho, Hl. simpl. exact E.
  - rewrite Ho, Hl. simpl. exact E.
  - exfalso. apply Hne. rewrite Ho. now destruct (labels last_instr).
Qed.

End BuilderCases.

(** ** Claims on the graph builder *)

(** C7.  In an ordered map on which [create_cfg] runs, an entry at position
    [i] whose body does not end in a terminator Operation receives exactly
    one successor: the key at position [i + 1] when there is one, [TERM]
    otherwise. *)
Theorem create_cfg_fall_through (m : label_map) (i : nat) (k : tuple)
        (blk : block) (last_instr : instr) :
  od_wf m -> cfg_buildable m = true ->
  nth_error m i = Some (k, blk) ->
  Py.last blk = Some last_instr ->
  is_terminator last_instr = false ->
  exists cfg,
    create_cfg m = Py.Ok cfg
    /\ cfg_get cfg k = Some [Some (next_node m i)]
    /\ (i + 1 < List.length m ->
        nth_error (OD.keys m) (i + 1) = Some (next_node m i))
    /\ (List.length m <= i + 1 -> next_node m i = TERM).
Proof.
  intros Hwf Hb Hn Hlast Hterm.
  destruct (create_cfg_spec m Hwf Hb) as (cfg & Hcfg & Hentries & _).
  destruct (Hentries i k blk Hn) as (d & Hd & Hget).
  exists cfg. split; [exact Hcfg|]. split.
  - rewrite Hget. f_equal.
    destruct (block_dest_cases m i blk last_instr d Hd Hlast)
      as [[_ E] | [[Ho _] | [[Ho _] | [Ho _]]]]; [exact E | | | ];
      unfold is_terminator in Hterm; rewrite Ho in Hterm; discriminate.
  - unfold next_node.
    assert (Hlen : List.length (OD.keys m) = List.length m)
      by apply length_map.
    split; intros Hi.
    + destruct (nth_error (OD.keys m) (i + 1)) eqn:E; [reflexivity|].
      apply nth_error_None in E. lia.
    + rewrite <- Hlen in Hi. apply nth_error_None in Hi. now rewrite Hi.
Qed.

Lemma create_cfg_fall_through_witness :
  exists cfg,
    create_cfg [(["A"], [Op "nop"]); (["B"], [Op "ret"])] = Py.Ok cfg
    /\ cfg_get cfg ["A"] = Some [Some ["B"]].
Proof.
  destruct (create_cfg_fall_through
              [(["A"], [Op "nop"]); (["B"], [Op "ret"])]
              0 ["A"] [Op "nop"] (Op "nop"))
    as (cfg & Hcfg & Hget & _).
  - repeat constructor; simpl; intuition discriminate.
  - reflexivity.
  - reflexivity.
  - reflexivity.
  - reflexivity.
  - exists cfg. split; [exact Hcfg | exact Hget].
Defined.

(** C8.  In an ordered map on which [create_cfg] runs, an entry whose body
    ends in a ['ret'] Operation receives the single successor [TERM]. *)
Theorem create_cfg_ret (m : label_map) (k : tuple) (blk : block)
        (last_instr : instr) :
  od_wf m -> cfg_buildable m = true ->
  In (k, blk) m ->
  Py.last blk = Some last_instr ->
  op last_instr = Some "ret" ->
  exists cfg, create_cfg m = Py.Ok cfg /\ cfg_get cfg k = Some [Some TERM].
Proof.
  intros Hwf Hb Hin Hlast Hop.
  destruct (create_cfg_spec m Hwf Hb) as (cfg & Hcfg & Hentries & _).
  destruct (In_nth_error _ _ Hin) as [i Hn].
  destruct (Hentries i k blk Hn) as (d & Hd & Hget).
  exists cfg. split; [exact Hcfg|]. rewrite Hget. f_equal.
  destruct (block_dest_cases m i blk last_instr d Hd Hlast)
    as [[Ht _] | [[Ho _] | [[Ho _] | [_ E]]]]; [ | | | exact E].
  - unfold is_terminator in Ht. rewrite Hop in Ht. discriminate.
  - congruence.
  - congruence.
Qed.

Lemma create_cfg_ret_witness :
  exists cfg,
    create_cfg [(["A"; "B"], [Op "ret"])] = Py.Ok cfg
    /\ cfg_get cfg ["A"; "B"] = Some [Some TERM].
Proof.
  apply (create_cfg_ret [(["A"; "B"], [Op "ret"])] ["A"; "B"] [Op "ret"]
                        (Op "ret")).
  - repeat constructor; simpl; intuition discriminate.
  - reflexivity.
  - left; reflexivity.
  - reflexivity.
  - reflexivity.
Defined.

(** C3, as amended.  In an ordered map on which [create_cfg] runs and none
    of whose keys is the tuple [('START',)], the [START] node has exactly one
    successor: the first key in insertion order, or [TERM] for the empty
    map.  The empty instruction list gives no block, the empty map and the
    CFG [{START: [TERM]}]. *)
Theorem create_cfg_start (m : label_map) :
  od_wf m -> cfg_buildable m = true ->
  ~ In START (OD.keys m) ->
  (exists cfg,
      create_cfg m = Py.Ok cfg
      /\ cfg_get cfg START = Some [Some (entry_node m)])
  /\ (get_basic_blocks [] = []
      /\ labels2blocks [] = Py.Ok []
      /\ create_cfg [] = Py.Ok [(START, [Some TERM])]).
Proof.
  intros Hwf Hb Hnot. split; [|repeat split].
  destruct (create_cfg_spec m Hwf Hb) as (cfg & Hcfg & _ & Hstart & _).
  exists cfg. split; [exact Hcfg | exact (Hstart Hnot)].
Qed.

Lemma create_cfg_start_witness :
  exists cfg,
    create_cfg [(["A"; "B"], [Op "ret"])] = Py.Ok cfg
    /\ cfg_get cfg START = Some [Some ["A"; "B"]].
Proof.
  apply (create_cfg_start [(["A"; "B"], [Op "ret"])]).
  - repeat constructor; simpl; intuition discriminate.
  - reflexivity.
  - simpl. unfold START. intuition discriminate.
Defined.

(** C3 as stated fails on a map that holds the key [('START',)]: the block
    labelled [START] overwrites the entry of the synthetic node.  The map is
    the one that the first two passes produce for
    [A: nop; START: br A A]. *)
Lemma create_cfg_start_counterexample :
  let instructions :=
    [Label "A"; Op "nop"; Label "START"; Jump "br" ["A"; "A"]] in
  let m := [(["A"], [Op "nop"]); (["START"], [Jump "br" ["A"; "A"]])] in
  labels2blocks (get_basic_blocks instructions) = Py.Ok m
  /\ create_cfg m
     = Py.Ok [(START, [Some ["A"]; Some ["A"]]); (["A"], [Some START])]
  /\ ~ start_routing m.
Proof.
  simpl. split; [reflexivity|]. split; [reflexivity|].
  intros (cfg & Hcfg & Hget). vm_compute in Hcfg. inversion Hcfg; subst.
  vm_compute in Hget. discriminate.
Qed.

(** The extent of the unguarded lookup.  [get_label_alias] is documented
    to return a tuple of labels, yet it falls off its loop on a label that
    no key contains.  On every map on which [create_cfg] runs, the lookup of
    such a jump target is then [None], and that [None] stands in the
    successor list of the referencing block at the position of the target
    (the only position for a ['jmp'], the position of the target in
    ['labels'] for a ['br']). *)
Lemma create_cfg_unresolved_target (m : label_map) (i : nat) (k : tuple)
        (blk : block) (last_instr : instr) (j : nat) (l : string) :
  od_wf m -> cfg_buildable m = true ->
  nth_error m i = Some (k, blk) ->
  Py.last blk = Some last_instr ->
  nth_error (jump_targets last_instr) j = Some l ->
  resolves m l = false ->
  get_label_alias m l = None
  /\ exists cfg d,
       create_cfg m = Py.Ok cfg
       /\ cfg_get cfg k = Some d
       /\ List.length d = List.length (jump_targets last_instr)
       /\ nth_error d j = Some None.
Proof.
  intros Hwf Hb Hn Hlast Hj Hres.
  assert (Hnone : get_label_alias m l = None)
    by now apply get_label_alias_none.
  split; [exact Hnone|].
  destruct (create_cfg_spec m Hwf Hb) as (cfg & Hcfg & Hentries & _).
  destruct (Hentries i k blk Hn) as (d & Hd & Hget).
  exists cfg, d. split; [exact Hcfg|]. split; [exact Hget|].
  assert (Hne : jump_targets last_instr <> [])
    by (intros E; rewrite E in Hj; destruct j; discriminate).
  rewrite (block_dest_targets m i blk last_instr d Hd Hlast Hne).
  split; [apply length_map|].
  rewrite nth_error_map, Hj. simpl. now rewrite Hnone.
Qed.

Lemma create_cfg_unresolved_target_witness :
  exists cfg d,
    create_cfg [(["block0"], [Op "const"; Jump "jmp" ["L"]])] = Py.Ok cfg
    /\ cfg_get cfg ["block0"] = Some d
    /\ nth_error d 0 = Some None.
Proof.
  destruct (create_cfg_unresolved_target
              [(["block0"], [Op "const"; Jump "jmp" ["L"]])]
              0 ["block0"] [Op "const"; Jump "jmp" ["L"]]
              (Jump "jmp" ["L"]) 0 "L")
    as (_ & cfg & d & Hcfg & Hget & _ & Hnth).
  - repeat constructor; simpl; intuition discriminate.
  - reflexivity.
  - reflexivity.
  - reflexivity.
  - reflexivity.
  - reflexivity.
  - exists cfg, d. repeat split; assumption.
Defined.

(** C1, a defect of the code.  The claim asks that a jump to a label that
    no key contains makes [create_cfg] fail.  On the stream [const; jmp L],
    in which nothing is labelled [L], the code raises nothing:
    [get_label_alias] falls off its loop, and [create_cfg] returns a CFG in
    which the successor of [block0] is [None]. *)
Theorem create_cfg_unresolved_counterexample :
  let m := [(["block0"], [Op "const"; Jump "jmp" ["L"]])] in
  labels2blocks (get_basic_blocks [Op "const"; Jump "jmp" ["L"]]) = Py.Ok m
  /\ resolves m "L" = false
  /\ create_cfg m
     = Py.Ok [(START, [Some ["block0"]]); (["block0"], [None])]
  /\ ~ unresolved_target_fails m.
Proof.
  simpl. repeat split; try reflexivity.
  intros Hclaim.
  destruct (Hclaim ["block0"] [Op "const"; Jump "jmp" ["L"]]
                   (Jump "jmp" ["L"]) "L") as [e He].
  - left; reflexivity.
  - reflexivity.
  - left; reflexivity.
  - reflexivity.
  - vm_compute in He. discriminate.
Qed.

Lemma br_two_targets_entry (m : label_map) (k : tuple) (blk : block)
      (last_instr : instr) (ls : list string) :
  br_two_targets m = true -> In (k, blk) m ->
  Py.last blk = Some last_instr -> op last_instr = Some "br" ->
  labels last_instr = Some ls -> exists t f, ls = [t; f].
Proof.
  unfold br_two_targets. rewrite forallb_forall. intros H Hin Hlast Ho Hl.
  specialize (H _ Hin). simpl in H. rewrite Hlast, Ho, Hl in H. simpl in H.
  destruct ls as [|t [|f [|x ls]]]; try discriminate. eauto.
Qed.

Lemma targets_resolve_entry (m : label_map) (k : tuple) (blk : block)
      (last_instr : instr) (l : string) :
  targets_resolve m = true -> In (k, blk) m ->
  Py.last blk = Some last_instr -> In l (jump_targets last_instr) ->
  resolves m l = true.
Proof.
  unfold targets_resolve. rewrite forallb_forall. intros H Hin Hlast Hl.
  specialize (H _ Hin). simpl in H. rewrite Hlast in H.
  rewrite forallb_forall in H. exact (H _ Hl).
Qed.

(** C2, as amended.  In an ordered map on which [create_cfg] runs, whose
    final ['br'] instructions each carry exactly two jump targets and all of
    whose jump targets resolve, every node of the built CFG has one or two successors, each of
    them a tuple.  A block has two successors exactly when its last
    instruction is a ['br'], and these are then the keys that hold the first
    and the second jump target, in that order.  A node that is no key of the
    map, which can only be [START], has one successor. *)
Theorem create_cfg_successor_arity (m : label_map) :
  od_wf m -> cfg_buildable m = true ->
  br_two_targets m = true -> targets_resolve m = true ->
  exists cfg,
    create_cfg m = Py.Ok cfg
    /\ forall k, In k (OD.keys cfg) ->
       exists d,
         cfg_get cfg k = Some d
         /\ (List.length d = 1 \/ List.length d = 2)
         /\ Forall (fun s : succ => s <> None) d
         /\ (~ In k (OD.keys m) -> k = START /\ List.length d = 1)
         /\ forall blk last_instr,
              In (k, blk) m -> Py.last blk = Some last_instr ->
              (List.length d = 2 <-> op last_instr = Some "br")
              /\ (op last_instr = Some "br" ->
                  exists t f Kt Kf,
                    labels last_instr = Some [t; f]
                    /\ d = [Some Kt; Some Kf]
                    /\ In Kt (OD.keys m) /\ In t Kt
                    /\ In Kf (OD.keys m) /\ In f Kf).
Proof.
  intros Hwf Hb Hbr Hres.
  destruct (create_cfg_spec m Hwf Hb) as (cfg & Hcfg & Hentries & Hstart & Hkeys).
  exists cfg. split; [exact Hcfg|]. intros k Hk.
  destruct (in_dec (list_eq_dec string_dec) k (OD.keys m)) as [Hin | Hnot].
  - (* a key of the map *)
    unfold OD.keys in Hin. apply in_map_iff in Hin.
    destruct Hin as [[k0 blk] [E Hin]]. simpl in E. subst k0.
    destruct (In_nth_error _ _ Hin) as [i Hn].
    destruct (Hentries i k blk Hn) as (d & Hd & Hget).
    assert (Hblk : forall blk', In (k, blk') m -> blk' = blk).
    { intros blk' Hin'.
      pose proof (od_get_in _ _ tuple_eqb tuple_eqb_eq m k blk Hwf Hin) as G1.
      pose proof (od_get_in _ _ tuple_eqb tuple_eqb_eq m k blk' Hwf Hin') as G2.
      congruence. }
    destruct (Py.last blk) as [li|] eqn:Hlast.
    2:{ pose proof (cfg_buildable_entry m k blk Hb Hin) as Hr.
        unfold entry_runs in Hr. rewrite Hlast in Hr. discriminate. }
    assert (Hshape :
      (op li <> Some "br" /\ exists K, d = [Some K])
      \/ (op li = Some "br" /\
          exists t f Kt Kf,
            labels li = Some [t; f] /\ d = [Some Kt; Some Kf]
            /\ In Kt (OD.keys m) /\ In t Kt /\ In Kf (OD.keys m) /\ In f Kf)).
    { destruct (block_dest_cases m i blk li d Hd Hlast)
        as [[Ht E] | [[Ho (l & ls & Hl & E)] | [[Ho (ls & Hl & E)] | [Ho E]]]].
      - left. split; [|eauto]. intros Ho. unfold is_terminator in Ht.
        rewrite Ho in Ht. discriminate.
      - left. split; [congruence|].
        destruct (get_label_alias_some m l) as (K & HK & _).
        { apply (targets_resolve_entry m k blk li l Hres Hin Hlast).
          unfold jump_targets. rewrite Ho, Hl. simpl. now left. }
        exists K. now rewrite E, HK.
      - right. split; [exact Ho|].
        destruct (br_two_targets_entry m k blk li ls Hbr Hin Hlast Ho Hl)
          as (t & f & ->).
        assert (Ht : forall x, In x [t; f] -> resolves m x = true).
        { intros x Hx.
          apply (targets_resolve_entry m k blk li x Hres Hin Hlast).
          unfold jump_targets. rewrite Ho, Hl. exact Hx. }
        destruct (get_label_alias_some m t) as (Kt & HKt & HinKt & HtKt);
          [apply Ht; simpl; tauto|].
        destruct (get_label_alias_some m f) as (Kf & HKf & HinKf & HfKf);
          [apply Ht; simpl; tauto|].
        exists t, f, Kt, Kf. simpl in E. rewrite HKt, HKf in E.
        repeat split; assumption.
      - left. split; [congruence | eauto]. }
    exists d. split; [exact Hget|].
    destruct Hshape as [[Hnbr [K ->]] | [Ho (t & f & Kt & Kf & Hl & -> & Hrest)]].
    + split; [left; reflexivity|]. split; [repeat constructor; discriminate|].
      split.
      * intros Hnot. exfalso. apply Hnot. unfold OD.keys.
        change k with (fst (k, blk)). now apply in_map.
      * intros blk' li' Hin' Hlast'. rewrite (Hblk _ Hin') in Hlast'.
        assert (li' = li) by congruence. subst li'.
        split; [split; [discriminate | contradiction] | contradiction].
    + split; [right; reflexivity|]. split; [repeat constructor; discriminate|].
      split.
      * intros Hnot. exfalso. apply Hnot. unfold OD.keys.
        change k with (fst (k, blk)). now apply in_map.
      * intros blk' li' Hin' Hlast'. rewrite (Hblk _ Hin') in Hlast'.
        assert (li' = li) by congruence. subst li'.
        split; [tauto|]. intros _. exists t, f, Kt, Kf. tauto.
  - (* the synthetic START node *)
    assert (k = START) by (apply Hkeys in Hk; tauto). subst k.
    exists [Some (entry_node m)]. split; [exact (Hstart Hnot)|].
    split; [left; reflexivity|]. split; [repeat constructor; discriminate|].
    split; [intros _; split; reflexivity|].
    intros blk li Hin. exfalso. apply Hnot. unfold OD.keys.
    change START with (fst (START, blk)). now apply in_map.
Qed.

Lemma create_cfg_successor_arity_witness :
  exists cfg,
    create_cfg [(["block0"], [Jump "br" ["T"; "F"]]);
                (["T"], [Op "ret"]); (["F"], [Op "ret"])] = Py.Ok cfg
    /\ cfg_get cfg ["block0"] = Some [Some ["T"]; Some ["F"]].
Proof.
  destruct (create_cfg_successor_arity
              [(["block0"], [Jump "br" ["T"; "F"]]);
               (["T"], [Op "ret"]); (["F"], [Op "ret"])])
    as (cfg & Hcfg & Hnodes).
  - repeat constructor; simpl; intuition discriminate.
  - reflexivity.
  - reflexivity.
  - reflexivity.
  - exists cfg. split; [exact Hcfg|].
    vm_compute in Hcfg. inversion Hcfg. reflexivity.
Defined.

(** C2 as stated fails on a ['br'] that does not carry two jump targets.
    With three targets, all of which resolve, the block gets three
    successors; with an empty ['labels'] it gets none. *)
Lemma create_cfg_successor_arity_counterexample :
  let m3 := [(["A"], [Jump "br" ["A"; "A"; "A"]])] in
  let m0 := [(["A"], [Jump "br" []])] in
  (targets_resolve m3 = true
   /\ create_cfg m3
      = Py.Ok [(START, [Some ["A"]]);
               (["A"], [Some ["A"]; Some ["A"]; Some ["A"]])]
   /\ ~ successor_arity m3)
  /\ (targets_resolve m0 = true
      /\ create_cfg m0 = Py.Ok [(START, [Some ["A"]]); (["A"], [])]
      /\ ~ successor_arity m0).
Proof.
  simpl. split; (split; [reflexivity|]); (split; [reflexivity|]);
    intros Hclaim.
  - destruct (Hclaim [(START, [Some ["A"]]);
                      (["A"], [Some ["A"]; Some ["A"]; Some ["A"]])]
                     ["A"] [Some ["A"]; Some ["A"]; Some ["A"]])
      as [[H | H] _]; try reflexivity; discriminate.
  - destruct (Hclaim [(START, [Some ["A"]]); (["A"], [])] ["A"] [])
      as [[H | H] _]; try reflexivity; discriminate.
Qed.

(** ** The label resolver *)

Section Resolver.

Lemma for_each_app (S X : Type) (body : S -> X -> Py.res S)
      (xs ys : list X) (s : S) :
  Py.for_each body (xs ++ ys) s
  = Py.bind (Py.for_each body xs s) (Py.for_each body ys).
Proof.
  revert s. induction xs as [|x xs IH]; intros s; simpl; [reflexivity|].
  destruct (body s x); simpl; [apply IH | reflexivity].
Qed.

(** An iteration of the loop, in terms of the label, the body and the
    counter of the block. *)
Lemma l2b_step_eq (st : l2b_state) (blk : block) :
  blk <> [] ->
  l2b_step st blk
  = match block_body blk with
    | _ :: _ =>
        Py.Ok {| label_block_map :=
                   OD.set tuple_eqb (label_block_map st)
                          (carry_list st
                             ++ [block_label (unlabeled_index st) blk])
                          (block_body blk);
                 unlabeled_index := next_index (unlabeled_index st) blk;
                 carry_list := [] |}
    | [] =>
        Py.Ok {| label_block_map := label_block_map st;
                 unlabeled_index := next_index (unlabeled_index st) blk;
                 carry_list :=
                   carry_list st ++ [block_label (unlabeled_index st) blk] |}
    end.
Proof.
  destruct blk as [|first_instr rest]; [congruence|]. intros _.
  unfold l2b_step, block_body, block_label, next_index.
  destruct (label first_instr); reflexivity.
Qed.

Lemma l2b_step_ok (st st' : l2b_state) (blk : block) :
  l2b_step st blk = Py.Ok st' -> blk <> [].
Proof. destruct blk; [discriminate | discriminate]. Qed.

Lemma is_label_only_body (blk : block) :
  blk <> [] -> (is_label_only blk = true <-> block_body blk = []).
Proof.
  destruct blk as [|i rest]; [congruence|]. intros _.
  unfold is_label_only, block_body, has_label.
  destruct (label i), rest; split; congruence.
Qed.

Lemma l2b_step_label_only (st : l2b_state) (blk : block) :
  is_label_only blk = true ->
  l2b_step st blk
  = Py.Ok {| label_block_map := label_block_map st;
             unlabeled_index := unlabeled_index st;
             carry_list := carry_list st ++ [block_label 0 blk] |}.
Proof.
  destruct blk as [|i [|x rest]]; try discriminate.
  unfold is_label_only, has_label, l2b_step, block_label.
  destruct (label i); [reflexivity | discriminate].
Qed.

Lemma block_labels_label_only (bs : list block) (i j : nat) :
  forallb is_label_only bs = true -> block_labels i bs = block_labels j bs.
Proof.
  revert i j. induction bs as [|b bs IH]; intros i j; simpl; [reflexivity|].
  rewrite andb_true_iff. intros [Hb Hbs].
  destruct b as [|x [|y rest]]; try discriminate.
  unfold is_label_only, has_label in Hb. simpl.
  destruct (label x); [|discriminate]. f_equal. apply IH, Hbs.
Qed.

(** A run of label-only blocks only extends the pending aliases. *)
Lemma l2b_loop_label_only (run : list block) (st : l2b_state) :
  forallb is_label_only run = true ->
  l2b_loop run st
  = Py.Ok {| label_block_map := label_block_map st;
             unlabeled_index := unlabeled_index st;
             carry_list := carry_list st ++ block_labels 0 run |}.
Proof.
  unfold l2b_loop. revert st.
  induction run as [|b run IH]; intros st; simpl.
  - intros _. rewrite app_nil_r. now destruct st.
  - rewrite andb_true_iff. intros [Hb Hrun].
    rewrite (l2b_step_label_only st b Hb). simpl. rewrite (IH _ Hrun). simpl.
    rewrite <- app_assoc. simpl.
    replace (next_index 0 b) with 0; [reflexivity|].
    destruct b as [|x [|y rest]]; try discriminate.
    unfold is_label_only, has_label in Hb. simpl.
    now destruct (label x).
Qed.

Lemma l2b_step_keys (st st' : l2b_state) (blk : block) :
  l2b_step st blk = Py.Ok st' ->
  (forall K, In K (OD.keys (label_block_map st)) ->
             In K (OD.keys (label_block_map st')))
  /\ (NoDup (OD.keys (label_block_map st)) ->
      NoDup (OD.keys (label_block_map st'))).
Proof.
  intros Hstep. pose proof (l2b_step_ok _ _ _ Hstep) as Hne.
  rewrite (l2b_step_eq st blk Hne) in Hstep.
  destruct (block_body blk); inversion Hstep; subst; simpl.
  - tauto.
  - split.
    + intros K HK. apply (od_keys_set _ _ tuple_eqb tuple_eqb_eq). now right.
    + apply od_set_wf. exact tuple_eqb_eq.
Qed.

Lemma l2b_loop_keys (bs : list block) (st st' : l2b_state) :
  l2b_loop bs st = Py.Ok st' ->
  (forall K, In K (OD.keys (label_block_map st)) ->
             In K (OD.keys (label_block_map st')))
  /\ (NoDup (OD.keys (label_block_map st)) ->
      NoDup (OD.keys (label_block_map st'))).
Proof.
  unfold l2b_loop. revert st.
  induction bs as [|b bs IH]; intros st; simpl.
  - intros E. inversion E; subst. tauto.
  - destruct (l2b_step st b) as [st1|] eqn:Hstep; simpl; [|discriminate].
    intros Hloop. destruct (l2b_step_keys _ _ _ Hstep) as [H1 H2].
    destruct (IH _ Hloop) as [H3 H4]. split; auto.
Qed.

(** The resolver runs on every sequence of non-empty blocks. *)
Lemma l2b_loop_total (bs : list block) (st : l2b_state) :
  Forall (fun b => b <> []) bs -> exists st', l2b_loop bs st = Py.Ok st'.
Proof.
  unfold l2b_loop. intros Hall. revert st.
  induction Hall as [|b bs Hb _ IH]; intros st; simpl; [eauto|].
  rewrite (l2b_step_eq st b Hb). destruct (block_body b); simpl; apply IH.
Qed.

End Resolver.

Section ResolverClaims.



Lemma l2b_loop_from_init_wf (bs : list block) (st : l2b_state) :
  l2b_loop bs l2b_init = Py.Ok st -> NoDup (OD.keys (label_block_map st)).
Proof.
  intros Hloop. apply (l2b_loop_keys bs l2b_init st Hloop). constructor.
Qed.

Lemma l2b_step_index (st st' : l2b_state) (blk : block) :
  l2b_step st blk = Py.Ok st' ->
  unlabeled_index st' = next_index (unlabeled_index st) blk.
Proof.
  intros Hstep. pose proof (l2b_step_ok _ _ _ Hstep) as Hne.
  rewrite (l2b_step_eq st blk Hne) in Hstep.
  destruct (block_body blk); now inversion Hstep.
Qed.

(** An iteration adds the label of its block to the names held by the
    state, and nothing else. *)
Lemma l2b_step_aliases (st st' : l2b_state) (blk : block) (l : string) :
  l2b_step st blk = Py.Ok st' ->
  In l (aliases st') <->
  In l (aliases st) \/ l = block_label (unlabeled_index st) blk.
Proof.
  intros Hstep. pose proof (l2b_step_ok _ _ _ Hstep) as Hne.
  rewrite (l2b_step_eq st blk Hne) in Hstep. unfold aliases.
  destruct (block_body blk); inversion Hstep; subst; simpl.
  - rewrite !in_app_iff. simpl. intuition.
  - rewrite app_nil_r, in_app_iff, !in_concat. split.
    + intros (K & HK & Hl).
      apply (od_keys_set _ _ tuple_eqb tuple_eqb_eq) in HK.
      destruct HK as [-> | HK].
      * apply in_app_iff in Hl. simpl in Hl. intuition.
      * left; left. eauto.
    + intros [[(K & HK & Hl) | Hl] | ->].
      * exists K. split; [|exact Hl].
        apply (od_keys_set _ _ tuple_eqb tuple_eqb_eq). now right.
      * eexists. split.
        -- apply (od_keys_set _ _ tuple_eqb tuple_eqb_eq). left; reflexivity.
        -- apply in_app_iff. now left.
      * eexists. split.
        -- apply (od_keys_set _ _ tuple_eqb tuple_eqb_eq). left; reflexivity.
        -- apply in_app_iff. right. now left.
Qed.

Lemma l2b_loop_aliases (bs : list block) (st st' : l2b_state) (l : string) :
  l2b_loop bs st = Py.Ok st' ->
  In l (aliases st') <->
  In l (aliases st) \/ In l (block_labels (unlabeled_index st) bs).
Proof.
  unfold l2b_loop. revert st.
  induction bs as [|b bs IH]; intros st; simpl.
  - intros E. inversion E; subst. tauto.
  - destruct (l2b_step st b) as [st1|] eqn:Hstep; simpl; [|discriminate].
    intros Hloop. rewrite (IH st1 Hloop), (l2b_step_aliases st st1 b l Hstep).
    rewrite (l2b_step_index st st1 b Hstep). intuition.
Qed.

(** C5, as amended.  Label-only blocks at the end of the sequence add no
    entry: the map is the one of the sequence without them.  A trailing
    label therefore occurs in no key of the returned map, provided that its
    name is not also the label (declared or synthesized) of a block before
    the trailing ones. *)
Theorem labels2blocks_trailing_label_only (bs trailing : list block) :
  trailing <> [] -> forallb is_label_only trailing = true ->
  labels2blocks (bs ++ trailing) = labels2blocks bs
  /\ forall out l K,
       labels2blocks (bs ++ trailing) = Py.Ok out ->
       In l (block_labels 0 trailing) -> ~ In l (block_labels 0 bs) ->
       In K (OD.keys out) -> ~ In l K.
Proof.
  intros _ Hlo.
  assert (E : labels2blocks (bs ++ trailing) = labels2blocks bs).
  { unfold labels2blocks, l2b_loop. rewrite for_each_app.
    destruct (Py.for_each l2b_step bs l2b_init) as [st|] eqn:Hbs; simpl;
      [|reflexivity].
    pose proof (l2b_loop_label_only trailing st Hlo) as Hr.
    unfold l2b_loop in Hr. rewrite Hr. reflexivity. }
  split; [exact E|].
  intros out l K Hout _ Hfresh HK Hl. rewrite E in Hout.
  unfold labels2blocks in Hout.
  destruct (l2b_loop bs l2b_init) as [st|] eqn:Hbs; simpl in Hout;
    [|discriminate].
  inversion Hout; subst out. apply Hfresh.
  assert (Hal : In l (aliases st)).
  { unfold aliases. apply in_app_iff. left. apply in_concat. eauto. }
  apply (l2b_loop_aliases bs l2b_init st l Hbs) in Hal.
  destruct Hal as [[] | Hal]. exact Hal.
Qed.

Lemma labels2blocks_trailing_label_only_witness :
  labels2blocks ([[Label "A"; Op "nop"]] ++ [[Label "B"]; [Label "C"]])
  = labels2blocks [[Label "A"; Op "nop"]].
Proof.
  apply (labels2blocks_trailing_label_only
           [[Label "A"; Op "nop"]] [[Label "B"]; [Label "C"]]).
  - discriminate.
  - reflexivity.
Defined.

(** C5 as stated fails when a trailing label repeats the label of an
    earlier block: the stream [A: nop; A:] ends with the label-only block
    [A], and [A] is an alias of the entry of the first block. *)
Lemma labels2blocks_trailing_counterexample :
  get_basic_blocks [Label "A"; Op "nop"; Label "A"]
  = [[Label "A"; Op "nop"]] ++ [[Label "A"]]
  /\ forallb is_label_only [[Label "A"]] = true
  /\ labels2blocks ([[Label "A"; Op "nop"]] ++ [[Label "A"]])
     = Py.Ok [(["A"], [Op "nop"])]
  /\ ~ trailing_dropped [[Label "A"; Op "nop"]] [[Label "A"]].
Proof.
  repeat split; try reflexivity.
  intros Hclaim.
  apply (Hclaim [(["A"], [Op "nop"])] "A" ["A"]).
  - reflexivity.
  - left; reflexivity.
  - left; reflexivity.
  - left; reflexivity.
Qed.

(** *** Labels of the stream and heads of blocks *)

Lemma bb_step_head_kept (st : list block * block) (i x : instr) :
  (exists b, In b (fst st) /\ hd_error b = Some x)
  \/ hd_error (snd st) = Some x ->
  (exists b, In b (fst (bb_step st i)) /\ hd_error b = Some x)
  \/ hd_error (snd (bb_step st i)) = Some x.
Proof.
  destruct st as [bbs blk]. simpl.
  assert (Hin : forall (b : block) bs, (exists b', In b' bbs /\ hd_error b' = Some x)
                     \/ hd_error b = Some x ->
                exists b', In b' (bbs ++ [b] ++ bs) /\ hd_error b' = Some x).
  { intros b bs [(b' & Hb' & Hx) | Hx].
    - exists b'. split; [|exact Hx]. apply in_app_iff. now left.
    - exists b. split; [|exact Hx]. apply in_app_iff. right. now left. }
  assert (Hsnoc : hd_error blk = Some x -> hd_error (blk ++ [i]) = Some x).
  { destruct blk; [discriminate | now simpl]. }
  intros H. unfold bb_step.
  destruct (op i) as [o|].
  - destruct (str_in o TERMINATOR_OPS).
    + destruct (label i); simpl; left.
      * apply (Hin (blk ++ [i]) []). intuition.
      * apply (Hin (blk ++ [i]) []). intuition.
    + destruct (label i); [|simpl; intuition].
      destruct (blk ++ [i]) as [|y b'] eqn:E; [destruct blk; discriminate|].
      simpl. left. apply (Hin (y :: b') []).
      destruct H as [H | H]; [left; exact H | right; exact (Hsnoc H)].
  - destruct (label i); [|simpl; exact H].
    destruct blk as [|y b']; simpl.
    + destruct H as [H | H]; [now left | discriminate].
    + left. apply (Hin (y :: b') []). exact H.
Qed.

Lemma bb_step_head_new (st : list block * block) (i : instr) (l : string) :
  label i = Some l -> hd_error (snd (bb_step st i)) = Some i.
Proof.
  destruct st as [bbs blk]. intros Hl. unfold bb_step. rewrite Hl.
  destruct (op i) as [o|].
  - destruct (str_in o TERMINATOR_OPS); [reflexivity|].
    destruct (blk ++ [i]); reflexivity.
  - destruct blk; reflexivity.
Qed.

Lemma bb_loop_heads (instructions : list instr) (st : list block * block)
      (x : instr) (l : string) :
  label x = Some l ->
  In x instructions
  \/ ((exists b, In b (fst st) /\ hd_error b = Some x)
      \/ hd_error (snd st) = Some x) ->
  (exists b, In b (fst (fold_left bb_step instructions st))
             /\ hd_error b = Some x)
  \/ hd_error (snd (fold_left bb_step instructions st)) = Some x.
Proof.
  intros Hl. revert st.
  induction instructions as [|i rest IH]; intros st; simpl.
  - intros [[] | H]. exact H.
  - intros [[E | Hin] | H].
    + subst i. apply IH. right. right. exact (bb_step_head_new st x l Hl).
    + apply IH. now left.
    + apply IH. right. now apply bb_step_head_kept.
Qed.

(** An instruction that carries a label begins a block of the partition. *)
Lemma get_basic_blocks_label_head (instructions : list instr) (x : instr)
      (l : string) :
  In x instructions -> label x = Some l ->
  exists b, In b (get_basic_blocks instructions) /\ hd_error b = Some x.
Proof.
  intros Hin Hl. unfold get_basic_blocks.
  destruct (bb_loop_heads instructions ([], []) x l Hl (or_introl Hin))
    as [(b & Hb & Hx) | Hx];
    destruct (fold_left bb_step instructions ([], [])) as [bbs blk];
    simpl in *.
  - exists b. split; [|exact Hx]. destruct blk; [exact Hb|].
    apply in_app_iff. now left.
  - destruct blk as [|y b']; [discriminate|].
    exists (y :: b'). split; [|exact Hx]. apply in_app_iff. right. now left.
Qed.

Lemma block_labels_head (bs : list block) (index : nat) (b : block)
      (x : instr) (l : string) :
  In b bs -> hd_error b = Some x -> label x = Some l ->
  In l (block_labels index bs).
Proof.
  revert index. induction bs as [|b0 bs IH]; intros index; simpl;
    [contradiction|].
  intros [E | Hin] Hx Hl.
  - subst b0. left. destruct b as [|y b']; [discriminate|].
    simpl in *. inversion Hx; subst. now rewrite Hl.
  - right. eapply IH; eassumption.
Qed.

(** *** The pending aliases at the end of the loop *)

Lemma trailing_label_only_all (bs : list block) :
  forallb is_label_only bs = true -> trailing_label_only bs = bs.
Proof.
  destruct bs as [|b bs]; [reflexivity|]. intros H.
  unfold trailing_label_only. now rewrite H.
Qed.

Lemma l2b_loop_carry (bs : list block) (st st' : l2b_state) :
  l2b_loop bs st = Py.Ok st' ->
  carry_list st'
  = if forallb is_label_only bs
    then carry_list st ++ block_labels 0 bs
    else block_labels 0 (trailing_label_only bs).
Proof.
  unfold l2b_loop. revert st.
  induction bs as [|b t IH]; intros st.
  - simpl. intros E. inversion E; subst. now rewrite app_nil_r.
  - change (Py.for_each l2b_step (b :: t) st)
      with (Py.bind (l2b_step st b) (Py.for_each l2b_step t)).
    change (forallb is_label_only (b :: t))
      with (is_label_only b && forallb is_label_only t).
    change (trailing_label_only (b :: t))
      with (if is_label_only b && forallb is_label_only t
            then b :: t else trailing_label_only t).
    destruct (l2b_step st b) as [st1|] eqn:Hstep; simpl; [|discriminate].
    intros Hloop. rewrite (IH st1 Hloop).
    pose proof (l2b_step_ok _ _ _ Hstep) as Hne.
    destruct (is_label_only b) eqn:Hb; simpl.
    + rewrite (l2b_step_label_only st b Hb) in Hstep.
      inversion Hstep; subst st1; simpl.
      destruct (forallb is_label_only t) eqn:Ht; [|reflexivity].
      rewrite <- app_assoc. simpl.
      now rewrite (block_labels_label_only t (next_index 0 b) 0 Ht).
    + rewrite (l2b_step_eq st b Hne) in Hstep.
      destruct (block_body b) eqn:Hbody.
      * apply (is_label_only_body b Hne) in Hbody. congruence.
      * inversion Hstep; subst st1; simpl.
        destruct (forallb is_label_only t) eqn:Ht; [|reflexivity].
        now rewrite (trailing_label_only_all t Ht).
Qed.

(** *** Distinct labels *)

Lemma NoDup_app_disjoint (A : Type) (l1 l2 : list A) (a : A) :
  NoDup (l1 ++ l2) -> In a l1 -> In a l2 -> False.
Proof.
  induction l1 as [|x l1 IH]; simpl; [tauto|].
  intros Hnd [E | Hin] H2; inversion Hnd as [|? ? Hnot Hnd']; subst.
  - apply Hnot, in_app_iff. now right.
  - now apply IH.
Qed.

Lemma NoDup_concat_unique (Ks : list tuple) (K K' : tuple) (l : string) :
  NoDup (List.concat Ks) -> In K Ks -> In K' Ks -> In l K -> In l K' ->
  K = K'.
Proof.
  induction Ks as [|K0 Ks IH]; simpl; [contradiction|].
  intros Hnd [E | HK] [E' | HK'] Hl Hl'; try congruence.
  - subst K0. exfalso. apply (NoDup_app_disjoint _ _ _ l Hnd Hl).
    apply in_concat. eauto.
  - subst K0. exfalso. apply (NoDup_app_disjoint _ _ _ l Hnd Hl').
    apply in_concat. eauto.
  - apply IH; auto. exact (NoDup_app_remove_l _ _ Hnd).
Qed.

Lemma l2b_step_aliases_fresh (st st' : l2b_state) (blk : block) :
  l2b_step st blk = Py.Ok st' ->
  ~ In (block_label (unlabeled_index st) blk) (aliases st) ->
  aliases st' = aliases st ++ [block_label (unlabeled_index st) blk].
Proof.
  intros Hstep Hfresh. pose proof (l2b_step_ok _ _ _ Hstep) as Hne.
  rewrite (l2b_step_eq st blk Hne) in Hstep. unfold aliases in *.
  destruct (block_body blk); inversion Hstep; subst; simpl.
  - now rewrite app_assoc.
  - rewrite (od_keys_set_notin _ _ tuple_eqb tuple_eqb_eq).
    + rewrite concat_app. simpl. now rewrite !app_nil_r, app_assoc.
    + intros HK. apply Hfresh, in_app_iff. left. apply in_concat.
      eexists. split; [exact HK|]. apply in_app_iff. right. now left.
Qed.

Lemma l2b_loop_aliases_fresh (bs : list block) (st st' : l2b_state) :
  l2b_loop bs st = Py.Ok st' ->
  NoDup (aliases st ++ block_labels (unlabeled_index st) bs) ->
  aliases st' = aliases st ++ block_labels (unlabeled_index st) bs.
Proof.
  unfold l2b_loop. revert st.
  induction bs as [|b bs IH]; intros st; simpl.
  - intros E _. inversion E; subst. now rewrite app_nil_r.
  - destruct (l2b_step st b) as [st1|] eqn:Hstep; simpl; [|discriminate].
    intros Hloop Hnd.
    assert (Hfresh : ~ In (block_label (unlabeled_index st) b) (aliases st)).
    { intros Hin. apply (NoDup_app_disjoint _ _ _ _ Hnd Hin). now left. }
    pose proof (l2b_step_aliases_fresh st st1 b Hstep Hfresh) as E1.
    pose proof (l2b_step_index st st1 b Hstep) as E2.
    rewrite (IH st1 Hloop); rewrite E1, E2, <- app_assoc; [reflexivity|].
    exact Hnd.
Qed.





Lemma get_basic_blocks_nonempty (instructions : list instr) :
  Forall (fun b : block => b <> []) (get_basic_blocks instructions).
Proof.
  eapply Forall_impl; [|exact (partition_invariant instructions)].
  simpl. tauto.
Qed.

Lemma l2b_init_carry (bs : list block) (st : l2b_state) :
  l2b_loop bs l2b_init = Py.Ok st ->
  carry_list st = block_labels 0 (trailing_label_only bs).
Proof.
  intros Hloop. rewrite (l2b_loop_carry bs l2b_init st Hloop). simpl.
  destruct (forallb is_label_only bs) eqn:E; [|reflexivity].
  now rewrite (trailing_label_only_all bs E).
Qed.

(** C6, as amended.  The resolver runs on the blocks of every instruction
    stream.  Every label name of a Label marker of the stream occurs in at
    least one key of the returned map, except the labels of the trailing
    label-only blocks.  When the labels of the blocks, declared and
    synthesized, are pairwise distinct, it occurs in exactly one key. *)
Theorem labels2blocks_identity_coverage (instructions : list instr) :
  let blocks := get_basic_blocks instructions in
  let trailing := block_labels 0 (trailing_label_only blocks) in
  exists out,
    labels2blocks blocks = Py.Ok out
    /\ NoDup (OD.keys out)
    /\ (forall i l,
          In i instructions -> is_label_marker i = true ->
          label i = Some l ->
          In l trailing \/ exists K, In K (OD.keys out) /\ In l K)
    /\ (NoDup (block_labels 0 blocks) ->
        forall i l,
          In i instructions -> is_label_marker i = true ->
          label i = Some l -> ~ In l trailing ->
          exists K, In K (OD.keys out) /\ In l K
                    /\ forall K', In K' (OD.keys out) -> In l K' -> K' = K).
Proof.
  intros blocks trailing.
  destruct (l2b_loop_total blocks l2b_init
              (get_basic_blocks_nonempty instructions)) as [st Hloop].
  exists (label_block_map st).
  assert (Hcover : forall i l,
            In i instructions -> label i = Some l ->
            In l trailing
            \/ exists K, In K (OD.keys (label_block_map st)) /\ In l K).
  { intros i l Hi Hl.
    destruct (get_basic_blocks_label_head instructions i l Hi Hl)
      as (b & Hb & Hx).
    pose proof (block_labels_head blocks 0 b i l Hb Hx Hl) as Hlab.
    assert (Hal : In l (aliases st))
      by (apply (l2b_loop_aliases blocks l2b_init st l Hloop); now right).
    unfold aliases in Hal. apply in_app_iff in Hal.
    destruct Hal as [Hal | Hal].
    - right. apply in_concat in Hal. destruct Hal as (K & HK & HlK). eauto.
    - left. unfold trailing. now rewrite <- (l2b_init_carry blocks st Hloop). }
  split; [unfold labels2blocks; now rewrite Hloop|].
  split; [exact (l2b_loop_from_init_wf blocks st Hloop)|].
  split; [intros i l Hi _ Hl; exact (Hcover i l Hi Hl)|].
  intros Hnd i l Hi _ Hl Hnot.
  destruct (Hcover i l Hi Hl) as [Ht | (K & HK & HlK)]; [contradiction|].
  exists K. split; [exact HK|]. split; [exact HlK|].
  intros K' HK' HlK'.
  pose proof (l2b_loop_aliases_fresh blocks l2b_init st Hloop Hnd) as Hal.
  simpl in Hal. rewrite <- Hal in Hnd. unfold aliases in Hnd.
  apply NoDup_app_remove_r in Hnd.
  exact (NoDup_concat_unique _ K' K l Hnd HK' HK HlK' HlK).
Qed.

Lemma labels2blocks_identity_coverage_witness :
  exists K,
    In K [["block0"]; ["A"; "B"]] /\ In "B" K
    /\ forall K', In K' [["block0"]; ["A"; "B"]] -> In "B" K' -> K' = K.
Proof.
  destruct (labels2blocks_identity_coverage
              [Op "nop"; Label "A"; Label "B"; Op "ret"; Label "C"])
    as (out & Hout & _ & _ & Hone).
  vm_compute in Hout. inversion Hout; subst out.
  apply (Hone ltac:(vm_compute; repeat constructor; simpl; intuition discriminate)
              (Label "B") "B").
  - simpl. tauto.
  - reflexivity.
  - reflexivity.
  - vm_compute. intuition discriminate.
Defined.

(** C6 as stated fails when a label name is declared twice: in the stream
    [A: x; A: B: y] the name [A] is an alias of the two keys [(A)] and
    [(A, B)], and no block is trailing. *)
Lemma labels2blocks_identity_counterexample :
  let instructions :=
    [Label "A"; Op "x"; Label "A"; Label "B"; Op "y"] in
  labels2blocks (get_basic_blocks instructions)
  = Py.Ok [(["A"], [Op "x"]); (["A"; "B"], [Op "y"])]
  /\ trailing_label_only (get_basic_blocks instructions) = []
  /\ ~ identity_coverage instructions.
Proof.
  simpl. split; [reflexivity|]. split; [reflexivity|].
  intros Hclaim.
  destruct (Hclaim [(["A"], [Op "x"]); (["A"; "B"], [Op "y"])]
                   (Label "A") "A") as (K & _ & _ & Huniq).
  - reflexivity.
  - left; reflexivity.
  - reflexivity.
  - reflexivity.
  - vm_compute. tauto.
  - assert (E1 : ["A"] = K) by (apply Huniq; simpl; tauto).
    assert (E2 : ["A"; "B"] = K) by (apply Huniq; simpl; tauto).
    congruence.
Qed.

End ResolverClaims.

(** * Further properties of the passes *)

(** ** The block partitioner *)

Section PartitionerFacts.

Lemma bb_step_copies (bbs : list block) (blk : block) (i : instr) :
  List.concat (fst (bb_step (bbs, blk) i)) ++ snd (bb_step (bbs, blk) i)
  = (List.concat bbs ++ blk) ++ kept_copies i.
Proof.
  unfold bb_step, kept_copies.
  destruct (op i) as [o|], (label i) as [l|]; simpl.
  - destruct (str_in o TERMINATOR_OPS); simpl.
    + rewrite concat_app. simpl. now rewrite !app_nil_r, <- !app_assoc.
    + destruct (blk ++ [i]) as [|y b'] eqn:E; [destruct blk; discriminate|].
      simpl. rewrite concat_app. simpl.
      now rewrite app_nil_r, <- E, <- !app_assoc.
  - destruct (str_in o TERMINATOR_OPS); simpl.
    + rewrite concat_app. simpl. now rewrite !app_nil_r, <- !app_assoc.
    + now rewrite app_assoc.
  - destruct blk as [|y b']; simpl.
    + now rewrite app_nil_r.
    + rewrite concat_app. simpl. now rewrite app_nil_r.
  - now rewrite !app_nil_r.
Qed.

Lemma bb_loop_copies (instructions : list instr) (st : list block * block) :
  List.concat (fst (fold_left bb_step instructions st))
    ++ snd (fold_left bb_step instructions st)
  = (List.concat (fst st) ++ snd st) ++ flat_map kept_copies instructions.
Proof.
  revert st. induction instructions as [|i rest IH]; simpl; intros st.
  - now rewrite app_nil_r.
  - rewrite IH. destruct st as [bbs blk].
    rewrite (bb_step_copies bbs blk i). simpl. now rewrite <- !app_assoc.
Qed.

Lemma partition_copies (instructions : list instr) :
  List.concat (get_basic_blocks instructions)
  = flat_map kept_copies instructions
  /\ forall i,
       In i (List.concat (get_basic_blocks instructions)) <->
       In i instructions /\ (op i <> None \/ label i <> None).
Proof.
  assert (E : List.concat (get_basic_blocks instructions)
              = flat_map kept_copies instructions).
  { unfold get_basic_blocks. rewrite bb_flush_concat, bb_loop_copies.
    reflexivity. }
  split; [exact E|]. intros i. rewrite E, in_flat_map. split.
  - intros (x & Hx & Hi). unfold kept_copies in Hi.
    apply in_app_iff in Hi.
    destruct (op x) eqn:Ho, (label x) eqn:Hl; simpl in Hi;
      destruct Hi as [Hi | Hi]; try contradiction;
      destruct Hi as [<- | []]; split; auto;
      rewrite ?Ho, ?Hl; first [left; discriminate | right; discriminate].
  - intros [Hin Hkey]. exists i. split; [exact Hin|].
    unfold kept_copies. apply in_app_iff.
    destruct (op i); [left; now left|].
    destruct (label i); [right; now left|].
    destruct Hkey; congruence.
Qed.

(** The blocks of [get_basic_blocks], concatenated, are the input in which
    every instruction stands once for its ['op'] and once for its
    ['label']: an instruction with both keys is kept twice, an instruction
    with neither is dropped, and the order is kept.  So an instruction is
    in a block exactly when it is in the input with one of the two keys. *)
Theorem get_basic_blocks_copies (instructions : list instr) :
  List.concat (get_basic_blocks instructions)
  = flat_map kept_copies instructions
  /\ forall i,
       In i (List.concat (get_basic_blocks instructions)) <->
       In i instructions /\ (op i <> None \/ label i <> None).
Proof.
  exact (partition_copies instructions).
Qed.

Lemma bb_loop_plain (instructions : list instr) (bbs : list block)
      (blk : block) :
  Forall (fun i => exists o, op i = Some o
                             /\ str_in o TERMINATOR_OPS = false
                             /\ label i = None) instructions ->
  fold_left bb_step instructions (bbs, blk) = (bbs, blk ++ instructions).
Proof.
  intros Hall. revert blk.
  induction Hall as [|i rest (o & Ho & Ht & Hl) _ IH]; intros blk; simpl.
  - now rewrite app_nil_r.
  - rewrite Ho, Ht, Hl. rewrite IH. now rewrite <- app_assoc.
Qed.

(** Without a terminator and without a label, the whole input is one
    block: a non-empty list of Operations with no terminator opcode is
    returned as the single block. *)
Theorem get_basic_blocks_single_block (instructions : list instr) :
  instructions <> [] ->
  Forall (fun i => exists o, op i = Some o
                             /\ str_in o TERMINATOR_OPS = false
                             /\ label i = None) instructions ->
  get_basic_blocks instructions = [instructions].
Proof.
  intros Hne Hall. unfold get_basic_blocks.
  pose proof (bb_loop_plain instructions [] [] Hall) as H.
  unfold block in *. rewrite H. simpl.
  destruct instructions; [congruence | reflexivity].
Qed.

Lemma get_basic_blocks_single_block_witness :
  get_basic_blocks [Op "const"; Op "add"; Op "print"]
  = [[Op "const"; Op "add"; Op "print"]].
Proof.
  apply get_basic_blocks_single_block.
  - discriminate.
  - repeat constructor; eexists; repeat split; reflexivity.
Defined.

Lemma Forall_removelast (A : Type) (P : A -> Prop) (l : list A) :
  Forall P l -> Forall P (removelast l).
Proof.
  induction 1 as [|x l Hx Hl IH]; simpl; [constructor|].
  destruct l; [constructor | constructor; assumption].
Qed.

Lemma bb_step_terminator (st : list block * block) (i : instr) :
  Forall (fun b => Forall (fun x => plain_terminator x = false)
                          (removelast b)) (fst st)
  /\ Forall (fun x => plain_terminator x = false) (snd st) ->
  Forall (fun b => Forall (fun x => plain_terminator x = false)
                          (removelast b)) (fst (bb_step st i))
  /\ Forall (fun x => plain_terminator x = false) (snd (bb_step st i)).
Proof.
  destruct st as [bbs blk]. simpl. intros [Hbbs Hblk].
  assert (Hclose : forall b,
            Forall (fun x => plain_terminator x = false) (removelast b) ->
            Forall (fun b => Forall (fun x => plain_terminator x = false)
                                    (removelast b)) (bbs ++ [b])).
  { intros b Hb. apply Forall_app. split; [exact Hbbs|].
    constructor; [exact Hb | constructor]. }
  assert (Hlab : forall l, label i = Some l -> plain_terminator i = false).
  { intros l Hl. unfold plain_terminator, has_label. rewrite Hl.
    apply andb_false_r. }
  unfold bb_step. destruct (op i) as [o|] eqn:Ho.
  - destruct (str_in o TERMINATOR_OPS) eqn:Ht.
    + destruct (label i) as [l|] eqn:Hl; simpl; split;
        try (apply Hclose; rewrite removelast_last; exact Hblk).
      * constructor; [exact (Hlab l eq_refl) | constructor].
      * constructor.
    + assert (Hi : plain_terminator i = false).
      { unfold plain_terminator, is_terminator. now rewrite Ho, Ht. }
      assert (Hsnoc : Forall (fun x => plain_terminator x = false)
                             (blk ++ [i])).
      { apply Forall_app. split; [exact Hblk|]. now constructor. }
      destruct (label i) as [l|] eqn:Hl; [|simpl; split; assumption].
      destruct (blk ++ [i]) as [|y b'] eqn:E; [destruct blk; discriminate|].
      simpl. split.
      * apply Hclose. now apply Forall_removelast.
      * constructor; [exact Hi | constructor].
  - assert (Hi : plain_terminator i = false).
    { unfold plain_terminator, is_terminator. now rewrite Ho. }
    destruct (label i) as [l|] eqn:Hl; [|simpl; split; assumption].
    destruct blk as [|y b']; simpl; split; auto;
      try (apply Hclose; now apply Forall_removelast);
      try (constructor; [exact Hi | constructor]).
Qed.

Lemma bb_loop_terminator (instructions : list instr)
      (st : list block * block) :
  Forall (fun b => Forall (fun x => plain_terminator x = false)
                          (removelast b)) (fst st)
  /\ Forall (fun x => plain_terminator x = false) (snd st) ->
  Forall (fun b => Forall (fun x => plain_terminator x = false)
                          (removelast b))
         (fst (fold_left bb_step instructions st))
  /\ Forall (fun x => plain_terminator x = false)
            (snd (fold_left bb_step instructions st)).
Proof.
  revert st. induction instructions as [|i rest IH]; simpl; intros st H.
  - exact H.
  - apply IH, bb_step_terminator, H.
Qed.

(** A terminator ends its block.  In every block of [get_basic_blocks],
    an instruction that stands before the last one is no terminator
    Operation, unless it also carries a label; when every instruction has
    exactly one of the two shapes, no instruction before the last is a
    terminator. *)
Theorem get_basic_blocks_terminator_last (instructions : list instr) :
  Forall (fun b : block =>
            exists init last_instr,
              b = init ++ [last_instr]
              /\ Forall (fun x => is_terminator x = true ->
                                  has_label x = true) init
              /\ (Forall (fun i => one_shape i = true) instructions ->
                  Forall (fun x => is_terminator x = false) init))
         (get_basic_blocks instructions).
Proof.
  pose proof (bb_loop_terminator instructions ([], [])
                (conj (Forall_nil _) (Forall_nil _))) as [Hbbs Hblk].
  pose proof (partition_invariant instructions) as Hinv.
  pose proof (partition_copies instructions) as [_ Hmem].
  assert (Hall : Forall (fun b => Forall (fun x => plain_terminator x = false)
                                         (removelast b))
                        (get_basic_blocks instructions)).
  { unfold get_basic_blocks.
    destruct (fold_left bb_step instructions ([], [])) as [bbs blk].
    simpl in *. destruct blk as [|y b']; [exact Hbbs|].
    apply Forall_app. split; [exact Hbbs|].
    constructor; [now apply Forall_removelast | constructor]. }
  rewrite Forall_forall in *. intros b Hb.
  destruct (Hinv b Hb) as [Hne _]. specialize (Hall b Hb).
  destruct (exists_last Hne) as (init & last_instr & E). subst b.
  rewrite removelast_last in Hall. exists init, last_instr.
  split; [reflexivity|]. rewrite Forall_forall in Hall. split.
  - apply Forall_forall. intros x Hx Ht. specialize (Hall x Hx).
    unfold plain_terminator in Hall. rewrite Ht in Hall. simpl in Hall.
    now destruct (has_label x).
  - intros Hshape. apply Forall_forall. intros x Hx.
    specialize (Hall x Hx).
    assert (Hin : In x instructions).
    { apply Hmem. apply in_concat. exists (init ++ [last_instr]).
      split; [exact Hb|]. apply in_app_iff. now left. }
    rewrite Forall_forall in Hshape. specialize (Hshape x Hin).
    unfold plain_terminator, is_terminator, has_label in *.
    unfold one_shape, is_operation, is_label_marker in Hshape.
    destruct (op x), (label x); simpl in *; try discriminate;
      try reflexivity.
    now rewrite andb_true_r in Hall.
Qed.

Lemma boundaries_snoc (bs : list block) (b : block) :
  boundaries bs ->
  (forall b1, Py.last bs = Some b1 -> boundary b1 b) ->
  boundaries (bs ++ [b]).
Proof.
  induction bs as [|b0 t IH]; [simpl; trivial|].
  destruct t as [|b1 t'].
  - simpl. intros _ H. split; [now apply H | trivial].
  - intros [H01 Ht] Hlast. change ((b0 :: b1 :: t') ++ [b])
      with (b0 :: (b1 :: t') ++ [b]).
    simpl. split; [exact H01|]. apply IH; [exact Ht | exact Hlast].
Qed.

Lemma boundaries_pair (pre post : list block) (b1 b2 : block) :
  boundaries (pre ++ b1 :: b2 :: post) -> boundary b1 b2.
Proof.
  induction pre as [|b0 pre IH]; simpl.
  - tauto.
  - destruct (pre ++ b1 :: b2 :: post) eqn:E.
    + destruct pre; discriminate.
    + intros [_ H]. now apply IH.
Qed.

Lemma boundary_snoc (b1 blk : block) (i : instr) :
  boundary b1 blk -> boundary b1 (blk ++ [i]).
Proof.
  intros [H | (x & Hx & Hl)]; [now left|]. right. exists x.
  split; [|exact Hl]. destruct blk; [discriminate | exact Hx].
Qed.

Lemma bb_step_boundaries (st : list block * block) (i : instr) :
  boundaries (fst st)
  /\ (forall b1, Py.last (fst st) = Some b1 -> boundary b1 (snd st)) ->
  boundaries (fst (bb_step st i))
  /\ (forall b1, Py.last (fst (bb_step st i)) = Some b1 ->
                 boundary b1 (snd (bb_step st i))).
Proof.
  destruct st as [bbs blk]. simpl. intros [Hbs Hlast].
  assert (Hnew : forall (b : block) l,
            label i = Some l -> forall b1,
            Py.last (bbs ++ [b]) = Some b1 -> boundary b1 [i]).
  { intros b l Hl b1 _. right. exists i. split; [reflexivity|].
    unfold has_label. now rewrite Hl. }
  unfold bb_step. destruct (op i) as [o|] eqn:Ho.
  - assert (Hsnoc : forall b1, Py.last bbs = Some b1 ->
                               boundary b1 (blk ++ [i])).
    { intros b1 Hb1. apply boundary_snoc. now apply Hlast. }
    destruct (str_in o TERMINATOR_OPS) eqn:Ht.
    + assert (Hend : forall (b2 : block) b1,
                Py.last (bbs ++ [blk ++ [i]]) = Some b1 -> boundary b1 b2).
      { intros b2 b1 Hb1. rewrite last_app_one in Hb1. inversion Hb1; subst.
        left. exists i. split; [apply last_app_one|].
        unfold is_terminator. now rewrite Ho. }
      destruct (label i); simpl; split;
        auto using boundaries_snoc.
    + destruct (label i) as [l|] eqn:Hl; [|simpl; split; assumption].
      destruct (blk ++ [i]) as [|y b'] eqn:E; [destruct blk; discriminate|].
      simpl. split; [now apply boundaries_snoc|]. exact (Hnew _ l eq_refl).
  - destruct (label i) as [l|] eqn:Hl; [|simpl; split; assumption].
    destruct blk as [|y b']; simpl; split; auto.
    + intros b1 _. right. exists i. split; [reflexivity|].
      unfold has_label. now rewrite Hl.
    + now apply boundaries_snoc.
    + exact (Hnew _ l eq_refl).
Qed.

Lemma bb_loop_boundaries (instructions : list instr)
      (st : list block * block) :
  boundaries (fst st)
  /\ (forall b1, Py.last (fst st) = Some b1 -> boundary b1 (snd st)) ->
  boundaries (fst (fold_left bb_step instructions st))
  /\ (forall b1,
         Py.last (fst (fold_left bb_step instructions st)) = Some b1 ->
         boundary b1 (snd (fold_left bb_step instructions st))).
Proof.
  revert st. induction instructions as [|i rest IH]; simpl; intros st H.
  - exact H.
  - apply IH, bb_step_boundaries, H.
Qed.

(** Why blocks end.  Of two consecutive blocks of [get_basic_blocks], the
    first ends in a terminator Operation or the second begins with an
    instruction that carries a label: a block is closed by a terminator, by
    the label that follows it, or by the end of the input. *)
Theorem get_basic_blocks_boundary (instructions : list instr)
        (pre post : list block) (b1 b2 : block) :
  get_basic_blocks instructions = pre ++ b1 :: b2 :: post ->
  boundary b1 b2.
Proof.
  intros E. apply (boundaries_pair pre post). rewrite <- E.
  unfold get_basic_blocks.
  pose proof (bb_loop_boundaries instructions ([], [])) as H.
  destruct H as [Hbs Hlast]; [simpl; split; [trivial | discriminate]|].
  destruct (fold_left bb_step instructions ([], [])) as [bbs blk].
  simpl in *. destruct blk as [|y b']; [exact Hbs|].
  now apply boundaries_snoc.
Qed.

Lemma get_basic_blocks_boundary_witness :
  boundary [Op "const"; Op "add"] [Label "L"; Op "ret"].
Proof.
  apply (get_basic_blocks_boundary
           [Op "const"; Op "add"; Label "L"; Op "ret"; Op "nop"]
           [] [[Op "nop"]]).
  reflexivity.
Defined.

End PartitionerFacts.

(** ** The label resolver *)

Section ResolverFacts.

Lemma l2b_loop_empty_block (bs : list block) (st : l2b_state) :
  In [] bs -> l2b_loop bs st = Py.Raise Py.IndexError.
Proof.
  unfold l2b_loop. revert st.
  induction bs as [|b bs IH]; intros st; simpl; [contradiction|].
  intros [E | Hin].
  - subst b. reflexivity.
  - destruct b as [|x rest]; [reflexivity|].
    rewrite (l2b_step_eq st (x :: rest)) by discriminate.
    destruct (block_body (x :: rest)); simpl; now apply IH.
Qed.

(** [labels2blocks] raises exactly on a sequence that holds an empty block,
    on which [block[0]] is an [IndexError]; on every other sequence it
    returns a map. *)
Theorem labels2blocks_index_error (bs : list block) :
  (labels2blocks bs = Py.Raise Py.IndexError <-> In [] bs)
  /\ ((exists out, labels2blocks bs = Py.Ok out) <-> ~ In [] bs)
  /\ (forall e, labels2blocks bs = Py.Raise e -> e = Py.IndexError).
Proof.
  assert (Hraise : In [] bs -> labels2blocks bs = Py.Raise Py.IndexError).
  { intros Hin. unfold labels2blocks.
    now rewrite (l2b_loop_empty_block bs l2b_init Hin). }
  assert (Hok : ~ In [] bs -> exists out, labels2blocks bs = Py.Ok out).
  { intros Hnot.
    destruct (l2b_loop_total bs l2b_init) as [st Hst].
    - apply Forall_forall. intros b Hb E. subst b. contradiction.
    - exists (label_block_map st). unfold labels2blocks. now rewrite Hst. }
  assert (Hdec : In [] bs \/ ~ In [] bs).
  { clear. induction bs as [|b bs [IH | IH]].
    - now right.
    - left. now right.
    - destruct b as [|x rest]; [left; now left|].
      right. intros [E | Hin]; [discriminate | contradiction]. }
  split; [|split].
  - split; [|exact Hraise]. intros E. destruct Hdec as [H | H]; [exact H|].
    destruct (Hok H) as [out Hout]. congruence.
  - split; [|exact Hok]. intros [out Hout] Hin.
    rewrite (Hraise Hin) in Hout. discriminate.
  - intros e E. destruct Hdec as [H | H].
    + rewrite (Hraise H) in E. now inversion E.
    + destruct (Hok H) as [out Hout]. congruence.
Qed.

Lemma od_set_in (V : Type) (d : OD.t tuple V) (k k' : tuple) (v v' : V) :
  In (k', v') (OD.set tuple_eqb d k v) -> (k', v') = (k, v) \/ In (k', v') d.
Proof.
  induction d as [|[k0 v0] d IH]; simpl.
  - intuition.
  - destruct (tuple_eqb k0 k) eqn:E; simpl.
    + apply tuple_eqb_eq in E. subst k0. intuition.
    + intuition.
Qed.

Lemma od_set_fresh (V : Type) (d : OD.t tuple V) (k : tuple) (v : V) :
  ~ In k (OD.keys d) -> OD.set tuple_eqb d k v = d ++ [(k, v)].
Proof.
  induction d as [|[k0 v0] d IH]; simpl; [reflexivity|]. intros Hnot.
  rewrite (od_eqb_neq _ tuple_eqb tuple_eqb_eq k0 k) by tauto.
  rewrite IH by tauto. reflexivity.
Qed.

Lemma l2b_step_entries (st st' : l2b_state) (blk : block) :
  l2b_step st blk = Py.Ok st' ->
  forall K body,
    In (K, body) (label_block_map st') ->
    In (K, body) (label_block_map st)
    \/ (K <> [] /\ body <> [] /\ body = block_body blk).
Proof.
  intros Hstep K body. pose proof (l2b_step_ok _ _ _ Hstep) as Hne.
  rewrite (l2b_step_eq st blk Hne) in Hstep.
  destruct (block_body blk) as [|y rest] eqn:Hbody; inversion Hstep; subst;
    simpl; [tauto|].
  intros Hin. apply od_set_in in Hin. destruct Hin as [E | Hin]; [|tauto].
  inversion E; subst. right. split; [|split; [discriminate | reflexivity]].
  destruct (carry_list st); discriminate.
Qed.

Lemma l2b_loop_entries (bs : list block) (st st' : l2b_state) :
  l2b_loop bs st = Py.Ok st' ->
  forall K body,
    In (K, body) (label_block_map st') ->
    In (K, body) (label_block_map st)
    \/ (K <> [] /\ body <> []
        /\ exists b, In b bs /\ body = block_body b).
Proof.
  unfold l2b_loop. revert st.
  induction bs as [|b bs IH]; intros st; simpl.
  - intros E. inversion E; subst. tauto.
  - destruct (l2b_step st b) as [st1|] eqn:Hstep; simpl; [|discriminate].
    intros Hloop K body Hin.
    destruct (IH st1 Hloop K body Hin)
      as [H1 | (HK & Hb & b' & Hb' & E)].
    + destruct (l2b_step_entries st st1 b Hstep K body H1)
        as [H0 | (HK & Hb & E)]; [now left|].
      right. repeat split; auto. exists b. split; [now left | exact E].
    + right. repeat split; auto. exists b'. split; [now right | exact E].
Qed.

(** The map that [labels2blocks] returns holds every key once; its keys
    are non-empty tuples, and its values are non-empty: each is an input
    block without its leading label. *)
Theorem labels2blocks_entries (bs : list block) (out : label_map) :
  labels2blocks bs = Py.Ok out ->
  NoDup (OD.keys out)
  /\ forall K body,
       In (K, body) out ->
       K <> [] /\ body <> [] /\ exists b, In b bs /\ body = block_body b.
Proof.
  unfold labels2blocks. intros Hout.
  destruct (l2b_loop bs l2b_init) as [st|] eqn:Hloop; simpl in Hout;
    [|discriminate].
  inversion Hout; subst out. split.
  - exact (l2b_loop_from_init_wf bs st Hloop).
  - intros K body Hin.
    destruct (l2b_loop_entries bs l2b_init st Hloop K body Hin)
      as [[] | H]. exact H.
Qed.

Lemma labels2blocks_entries_witness :
  NoDup (OD.keys [(["block0"], [Op "nop"]); (["A"; "B"], [Op "ret"])]).
Proof.
  apply (labels2blocks_entries
           [[Op "nop"]; [Label "A"]; [Label "B"; Op "ret"]]
           [(["block0"], [Op "nop"]); (["A"; "B"], [Op "ret"])]).
  reflexivity.
Defined.

Lemma l2b_step_values_fresh (st st' : l2b_state) (blk : block) :
  l2b_step st blk = Py.Ok st' ->
  ~ In (block_label (unlabeled_index st) blk) (aliases st) ->
  map snd (label_block_map st')
  = map snd (label_block_map st)
      ++ map block_body (filter (fun b => negb (is_label_only b)) [blk]).
Proof.
  intros Hstep Hfresh. pose proof (l2b_step_ok _ _ _ Hstep) as Hne.
  rewrite (l2b_step_eq st blk Hne) in Hstep. simpl.
  destruct (block_body blk) as [|y rest] eqn:Hbody; inversion Hstep; subst;
    simpl.
  - apply (is_label_only_body blk Hne) in Hbody. rewrite Hbody. simpl.
    now rewrite app_nil_r.
  - assert (Hlo : is_label_only blk = false).
    { destruct (is_label_only blk) eqn:E; [|reflexivity].
      apply (is_label_only_body blk Hne) in E. congruence. }
    rewrite Hlo. simpl. rewrite od_set_fresh.
    + rewrite map_app. simpl. now rewrite Hbody.
    + intros HK. apply Hfresh. unfold aliases. apply in_app_iff. left.
      apply in_concat. eexists. split; [exact HK|].
      apply in_app_iff. right. now left.
Qed.

Lemma l2b_loop_values_fresh (bs : list block) (st st' : l2b_state) :
  l2b_loop bs st = Py.Ok st' ->
  NoDup (aliases st ++ block_labels (unlabeled_index st) bs) ->
  map snd (label_block_map st')
  = map snd (label_block_map st)
      ++ map block_body (filter (fun b => negb (is_label_only b)) bs).
Proof.
  unfold l2b_loop. revert st.
  induction bs as [|b bs IH]; intros st.
  - simpl. intros E _. inversion E; subst. now rewrite app_nil_r.
  - change (Py.for_each l2b_step (b :: bs) st)
      with (Py.bind (l2b_step st b) (Py.for_each l2b_step bs)).
    destruct (l2b_step st b) as [st1|] eqn:Hstep; [|discriminate].
    cbn [Py.bind block_labels]. intros Hloop Hnd.
    assert (Hfresh : ~ In (block_label (unlabeled_index st) b) (aliases st)).
    { intros Hin. apply (NoDup_app_disjoint _ _ _ _ Hnd Hin). now left. }
    pose proof (l2b_step_aliases_fresh st st1 b Hstep Hfresh) as E1.
    pose proof (l2b_step_index st st1 b Hstep) as E2.
    rewrite (IH st1 Hloop).
    + rewrite (l2b_step_values_fresh st st1 b Hstep Hfresh).
      rewrite <- app_assoc, <- map_app. f_equal. f_equal.
      change (b :: bs) with ([b] ++ bs). now rewrite filter_app.
    + rewrite E1, E2, <- app_assoc. exact Hnd.
Qed.

Lemma labels2blocks_distinct_labels_keys (bs : list block)
      (out : label_map) :
  NoDup (block_labels 0 bs) -> labels2blocks bs = Py.Ok out ->
  NoDup (List.concat (OD.keys out)).
Proof.
  unfold labels2blocks. intros Hnd Hout.
  destruct (l2b_loop bs l2b_init) as [st|] eqn:Hloop; simpl in Hout;
    [|discriminate].
  inversion Hout; subst out.
  pose proof (l2b_loop_aliases_fresh bs l2b_init st Hloop Hnd) as Hal.
  simpl in Hal. rewrite <- Hal in Hnd.
  exact (NoDup_app_remove_r _ _ Hnd).
Qed.

(** When the labels of the blocks, declared and synthesized, are pairwise
    distinct, [labels2blocks] keeps the order of the blocks and loses none
    with a body: the values of the map, in insertion order, are the bodies
    of the blocks that are not label-only; and the keys, concatenated in
    insertion order and followed by the labels of the trailing label-only
    blocks, are the labels of the blocks in order. *)
Theorem labels2blocks_distinct_labels (bs : list block) (out : label_map) :
  NoDup (block_labels 0 bs) ->
  labels2blocks bs = Py.Ok out ->
  map snd out
  = map block_body (filter (fun b => negb (is_label_only b)) bs)
  /\ List.concat (OD.keys out)
       ++ block_labels 0 (trailing_label_only bs)
     = block_labels 0 bs.
Proof.
  unfold labels2blocks. intros Hnd Hout.
  destruct (l2b_loop bs l2b_init) as [st|] eqn:Hloop; simpl in Hout;
    [|discriminate].
  inversion Hout; subst out. split.
  - exact (l2b_loop_values_fresh bs l2b_init st Hloop Hnd).
  - rewrite <- (l2b_init_carry bs st Hloop).
    exact (l2b_loop_aliases_fresh bs l2b_init st Hloop Hnd).
Qed.

Lemma labels2blocks_distinct_labels_witness :
  map snd [(["block0"], [Op "nop"]); (["A"; "B"], [Op "ret"])]
  = map block_body
        (filter (fun b => negb (is_label_only b))
                [[Op "nop"]; [Label "A"]; [Label "B"; Op "ret"];
                 [Label "C"]]).
Proof.
  apply (labels2blocks_distinct_labels
           [[Op "nop"]; [Label "A"]; [Label "B"; Op "ret"]; [Label "C"]]
           [(["block0"], [Op "nop"]); (["A"; "B"], [Op "ret"])]).
  - vm_compute. repeat constructor; simpl; intuition discriminate.
  - reflexivity.
Defined.

(** *** Synthesized names *)

Lemma to_uint_not_nil (n : nat) : Nat.to_uint n <> Decimal.Nil.
Proof.
  intros E. pose proof (DecimalNat.Unsigned.of_to n) as H.
  rewrite E in H. simpl in H. subst n. discriminate.
Qed.

Lemma py_str_inj (n n' : nat) : Py.str n = Py.str n' -> n = n'.
Proof.
  unfold Py.str. intros E.
  pose proof (NilZero.usu (Nat.to_uint n) (to_uint_not_nil n)) as H1.
  pose proof (NilZero.usu (Nat.to_uint n') (to_uint_not_nil n')) as H2.
  rewrite E in H1. rewrite H1 in H2. inversion H2.
  now apply DecimalNat.Unsigned.to_uint_inj.
Qed.

Lemma synthesized_inj (n n' : nat) :
  String.append "block" (Py.str n) = String.append "block" (Py.str n') ->
  n = n'.
Proof.
  simpl. intros E. inversion E. now apply py_str_inj.
Qed.

Lemma l2b_loop_unlabeled (bs : list block) (st : l2b_state) :
  Forall (fun b => exists i rest, b = i :: rest /\ label i = None) bs ->
  carry_list st = [] ->
  (forall k, unlabeled_index st <= k ->
             ~ In [String.append "block" (Py.str k)]
                  (OD.keys (label_block_map st))) ->
  l2b_loop bs st
  = Py.Ok {| label_block_map :=
               label_block_map st
               ++ map (fun e : nat * block =>
                         ([String.append "block" (Py.str (fst e))], snd e))
                      (combine (seq (unlabeled_index st) (List.length bs))
                               bs);
             unlabeled_index := unlabeled_index st + List.length bs;
             carry_list := [] |}.
Proof.
  unfold l2b_loop. intros Hall. revert st.
  induction Hall as [|b bs (i & rest & Eb & Hl) _ IH]; intros st Hc Hfresh.
  - simpl. rewrite app_nil_r, Nat.add_0_r. destruct st; simpl in *.
    now subst.
  - subst b. simpl. rewrite Hl, Hc. simpl. rewrite IH; simpl.
    + rewrite od_set_fresh by (apply Hfresh; lia).
      rewrite <- app_assoc. simpl. do 2 f_equal. lia.
    + reflexivity.
    + intros k Hk HK. rewrite od_set_fresh in HK by (apply Hfresh; lia).
      unfold OD.keys in HK. rewrite map_app in HK. apply in_app_iff in HK.
      simpl in HK. destruct HK as [HK | [E | []]].
      * apply (Hfresh k); [lia | exact HK].
      * inversion E as [E']. apply py_str_inj in E'. lia.
Qed.

(** Blocks without labels are named [block0], [block1], ... in order, and
    the names never collide: when no block begins with a label, the map
    holds every block, whole and in order, the block at position [n] under
    the key [('block<n>',)]. *)
Theorem labels2blocks_unlabeled (bs : list block) :
  Forall (fun b => exists i rest, b = i :: rest /\ label i = None) bs ->
  labels2blocks bs
  = Py.Ok (map (fun e : nat * block =>
                  ([String.append "block" (Py.str (fst e))], snd e))
               (Py.enumerate bs)).
Proof.
  intros Hall. unfold labels2blocks.
  rewrite (l2b_loop_unlabeled bs l2b_init Hall); simpl; auto.
Qed.

Lemma labels2blocks_unlabeled_witness :
  labels2blocks [[Op "nop"; Jump "jmp" ["L"]]; [Op "ret"]]
  = Py.Ok [(["block0"], [Op "nop"; Jump "jmp" ["L"]]);
           (["block1"], [Op "ret"])].
Proof.
  apply (labels2blocks_unlabeled [[Op "nop"; Jump "jmp" ["L"]]; [Op "ret"]]).
  repeat constructor; eexists; eexists; split; reflexivity.
Defined.

End ResolverFacts.

(** ** Alias lookup *)

Section AliasFacts.

Lemma find_first (A : Type) (f : A -> bool) (xs : list A) (x : A) :
  find f xs = Some x <->
  exists pre post,
    xs = pre ++ x :: post /\ f x = true /\ Forall (fun y => f y = false) pre.
Proof.
  induction xs as [|y xs IH]; simpl.
  - split; [discriminate|]. intros (pre & post & E & _).
    destruct pre; discriminate.
  - destruct (f y) eqn:Hy.
    + split.
      * intros E. inversion E; subst. exists [], xs. repeat split; auto.
      * intros (pre & post & E & Hx & Hpre). destruct pre as [|z pre].
        -- simpl in E. now inversion E.
        -- simpl in E. inversion E; subst.
           inversion Hpre; subst. congruence.
    + rewrite IH. split.
      * intros (pre & post & E & Hx & Hpre). exists (y :: pre), post.
        subst xs. repeat split; auto.
      * intros (pre & post & E & Hx & Hpre). destruct pre as [|z pre].
        -- simpl in E. inversion E; subst. congruence.
        -- simpl in E. inversion E; subst. inversion Hpre; subst.
           exists pre, post. repeat split; auto.
Qed.

(** [get_label_alias] returns the first key, in insertion order, that
    holds the label, and Python's [None] exactly when no key holds it. *)
Theorem get_label_alias_first (m : label_map) (l : string) :
  (forall K,
      get_label_alias m l = Some K <->
      exists pre post,
        OD.keys m = pre ++ K :: post /\ In l K
        /\ Forall (fun K' => ~ In l K') pre)
  /\ (get_label_alias m l = None <-> forall K, In K (OD.keys m) -> ~ In l K).
Proof.
  split.
  - intros K. unfold get_label_alias. rewrite find_first.
    split; intros (pre & post & E & Hl & Hpre); exists pre, post;
      (split; [exact E|]); rewrite str_in_In in *; (split; [exact Hl|]);
      eapply Forall_impl; try exact Hpre; simpl; intros K' HK'.
    + intros Hin. apply str_in_In in Hin. congruence.
    + destruct (str_in l K') eqn:E'; [|reflexivity].
      apply str_in_In in E'. contradiction.
  - rewrite get_label_alias_none. unfold resolves. split.
    + intros Hex K HK Hl.
      assert (Ht : existsb (fun label_set => str_in l label_set) (OD.keys m)
                   = true).
      { apply existsb_exists. exists K. split; [exact HK|].
        now apply str_in_In. }
      congruence.
    + intros Hall. destruct (existsb _ _) eqn:E; [|reflexivity].
      apply existsb_exists in E. destruct E as (K & HK & Hl).
      apply str_in_In in Hl. exfalso. exact (Hall K HK Hl).
Qed.

(** Lookup after resolution.  When the labels of the blocks are pairwise
    distinct, every alias of every key of the map of [labels2blocks] looks
    up to that key. *)
Theorem get_label_alias_labels2blocks (bs : list block) (out : label_map)
        (K : tuple) (l : string) :
  NoDup (block_labels 0 bs) ->
  labels2blocks bs = Py.Ok out ->
  In K (OD.keys out) -> In l K ->
  get_label_alias out l = Some K.
Proof.
  intros Hnd Hout HK Hl.
  pose proof (labels2blocks_distinct_labels_keys bs out Hnd Hout) as Hcat.
  destruct (get_label_alias_some out l) as (K' & E & HK' & Hl').
  { unfold resolves. apply existsb_exists. exists K.
    split; [exact HK | now apply str_in_In]. }
  rewrite E. f_equal.
  exact (NoDup_concat_unique _ K' K l Hcat HK' HK Hl' Hl).
Qed.

Lemma get_label_alias_labels2blocks_witness :
  get_label_alias [(["block0"], [Op "nop"]); (["A"; "B"], [Op "ret"])] "B"
  = Some ["A"; "B"].
Proof.
  apply (get_label_alias_labels2blocks
           [[Op "nop"]; [Label "A"]; [Label "B"; Op "ret"]]).
  - vm_compute. repeat constructor; simpl; intuition discriminate.
  - reflexivity.
  - right; left; reflexivity.
  - right; left; reflexivity.
Defined.

End AliasFacts.

(** ** The graph builder *)

Section BuilderFacts.

Lemma entry_exn_runs (blk : block) :
  entry_exn blk = None <-> entry_runs blk = true.
Proof.
  unfold entry_exn, entry_runs.
  destruct (Py.last blk) as [li|]; [|split; discriminate].
  destruct (op li) as [o|]; [|tauto].
  destruct (String.eqb o "jmp").
  - destruct (labels li) as [[|l ls]|]; split; congruence.
  - destruct (String.eqb o "br"); [|tauto].
    destruct (labels li); split; congruence.
Qed.

Lemma block_dest_exn (m : label_map) (i : nat) (blk : block) (e : Py.exn) :
  block_dest m i blk = Py.Raise e <-> entry_exn blk = Some e.
Proof.
  unfold entry_exn, block_dest, terminator_dest.
  destruct (Py.last blk) as [li|]; [|split; congruence].
  destruct (op li) as [o|]; [|split; discriminate].
  assert (Hterm : String.eqb o "jmp" = true \/ String.eqb o "br" = true ->
                  str_in o TERMINATOR_OPS = true).
  { unfold str_in, TERMINATOR_OPS. simpl. intros [-> | ->]; simpl;
      [reflexivity | apply orb_true_r]. }
  destruct (String.eqb o "jmp") eqn:Ej.
  - rewrite Hterm by tauto.
    destruct (labels li) as [[|l ls]|]; split; congruence.
  - destruct (String.eqb o "br") eqn:Eb.
    + rewrite Hterm by tauto. destruct (labels li); split; congruence.
    + destruct (str_in o TERMINATOR_OPS), (String.eqb o "ret");
        split; discriminate.
Qed.

Lemma cfg_loop_raise (m : label_map) (xs : label_map) (s : nat)
      (cfg0 : cfg_map) (e : Py.exn) :
  Py.for_each (cfg_step m) (combine (seq s (List.length xs)) xs) cfg0
  = Py.Raise e <->
  exists pre k blk post,
    xs = pre ++ (k, blk) :: post
    /\ cfg_buildable pre = true
    /\ entry_exn blk = Some e.
Proof.
  revert s cfg0. induction xs as [|[k blk] xs IH]; intros s cfg0; simpl.
  - split; [discriminate|]. intros (pre & ? & ? & ? & E & _).
    destruct pre; discriminate.
  - destruct (block_dest m s blk) as [d|e'] eqn:Hd; simpl.
    + assert (Hrun : entry_runs blk = true)
        by exact (block_dest_ok_runs m s blk d Hd).
      rewrite IH. split.
      * intros (pre & k' & blk' & post & E & Hpre & He).
        exists ((k, blk) :: pre), k', blk', post. subst xs.
        split; [reflexivity|]. split; [|exact He].
        unfold cfg_buildable in *. simpl. now rewrite Hrun.
      * intros (pre & k' & blk' & post & E & Hpre & He).
        destruct pre as [|x pre]; simpl in E; inversion E; subst.
        -- apply entry_exn_runs in Hrun. congruence.
        -- exists pre, k', blk', post. split; [reflexivity|].
           split; [|exact He]. unfold cfg_buildable in *. simpl in Hpre.
           now apply andb_true_iff in Hpre.
    + apply block_dest_exn in Hd. split.
      * intros E. inversion E; subst. exists [], k, blk, xs.
        repeat split; auto.
      * intros (pre & k' & blk' & post & E & Hpre & He).
        destruct pre as [|x pre]; simpl in E; inversion E; subst.
        -- congruence.
        -- unfold cfg_buildable in Hpre. simpl in Hpre.
           apply andb_true_iff in Hpre. destruct Hpre as [Hrun _].
           apply entry_exn_runs in Hrun. congruence.
Qed.

(** The failures of [create_cfg].  It returns a CFG exactly when every
    body has a last instruction, every final ['jmp'] has a non-empty
    ['labels'] and every final ['br'] has a ['labels'].  Otherwise it raises
    the exception of the first entry that fails: [IndexError] for an empty
    body or a ['jmp'] with an empty ['labels'], [KeyError] for a ['jmp'] or
    ['br'] without the key ['labels']. *)
Theorem create_cfg_exceptions (m : label_map) :
  ((exists cfg, create_cfg m = Py.Ok cfg) <-> cfg_buildable m = true)
  /\ forall e,
       create_cfg m = Py.Raise e <->
       exists pre k blk post,
         m = pre ++ (k, blk) :: post
         /\ cfg_buildable pre = true
         /\ entry_exn blk = Some e.
Proof.
  split.
  - split.
    + intros [cfg Hcfg]. exact (create_cfg_ok_buildable m cfg Hcfg).
    + intros Hb. unfold create_cfg.
      destruct (cfg_loop_spec m (Py.enumerate m)
                  match OD.keys m with
                  | k :: _ => OD.set tuple_eqb [] START [Some k]
                  | [] => OD.set tuple_eqb [] START [Some TERM]
                  end) as (cfg & Hcfg & _); [|eauto].
      intros [i [k blk]] He. apply enumerate_In in He. simpl.
      apply (cfg_buildable_entry m k blk Hb). eapply nth_error_In, He.
  - intros e. unfold create_cfg, Py.enumerate. apply cfg_loop_raise.
Qed.

Lemma create_cfg_ok_spec (m : label_map) (cfg : cfg_map) :
  od_wf m -> create_cfg m = Py.Ok cfg ->
  (forall i k blk, nth_error m i = Some (k, blk) ->
     exists d, block_dest m i blk = Py.Ok d /\ cfg_get cfg k = Some d)
  /\ (~ In START (OD.keys m) ->
      cfg_get cfg START = Some [Some (entry_node m)])
  /\ (forall k, In k (OD.keys cfg) <-> k = START \/ In k (OD.keys m)).
Proof.
  intros Hwf Hcfg.
  destruct (create_cfg_spec m Hwf (create_cfg_ok_buildable m cfg Hcfg))
    as (cfg' & Hcfg' & H).
  assert (cfg' = cfg) by congruence. subst cfg'. exact H.
Qed.

Lemma od_get_some_key (V : Type) (d : OD.t tuple V) (k : tuple) (v : V) :
  OD.get tuple_eqb d k = Some v -> In k (OD.keys d).
Proof.
  induction d as [|[k0 v0] d IH]; simpl; [discriminate|].
  destruct (tuple_eqb k0 k) eqn:E.
  - apply tuple_eqb_eq in E. now left.
  - intros H. right. now apply IH.
Qed.

(** An entry of the built CFG: the [START] entry, or the successor list
    that the loop computed for a key of the map. *)
Lemma create_cfg_entry (m : label_map) (cfg : cfg_map) (k : tuple)
      (d : list succ) :
  od_wf m -> create_cfg m = Py.Ok cfg -> cfg_get cfg k = Some d ->
  (~ In k (OD.keys m) /\ k = START /\ d = [Some (entry_node m)])
  \/ (exists i blk, nth_error m i = Some (k, blk)
                    /\ block_dest m i blk = Py.Ok d).
Proof.
  intros Hwf Hcfg Hget.
  destruct (create_cfg_ok_spec m cfg Hwf Hcfg) as (Hentries & Hstart & Hkeys).
  destruct (in_dec (list_eq_dec string_dec) k (OD.keys m)) as [Hin | Hnot].
  - right. unfold OD.keys in Hin. apply in_map_iff in Hin.
    destruct Hin as [[k0 blk] [E Hin]]. simpl in E. subst k0.
    destruct (In_nth_error _ _ Hin) as [i Hn].
    destruct (Hentries i k blk Hn) as (d' & Hd & Hget').
    exists i, blk. split; [exact Hn|]. congruence.
  - left. assert (k = START).
    { apply od_get_some_key in Hget. apply Hkeys in Hget. tauto. }
    subst k. split; [exact Hnot|]. split; [reflexivity|].
    rewrite (Hstart Hnot) in Hget. congruence.
Qed.

Lemma cfg_loop_keys (m : label_map) (es : list (nat * (tuple * block)))
      (cfg0 cfg : cfg_map) :
  NoDup (map (fun e : nat * (tuple * block) => fst (snd e)) es) ->
  Py.for_each (cfg_step m) es cfg0 = Py.Ok cfg ->
  OD.keys cfg
  = OD.keys cfg0
      ++ filter (fun k => negb (existsb (tuple_eqb k) (OD.keys cfg0)))
                (map (fun e : nat * (tuple * block) => fst (snd e)) es).
Proof.
  revert cfg0. induction es as [|[i [k blk]] es IH]; intros cfg0; simpl.
  - intros _ E. inversion E; subst. now rewrite app_nil_r.
  - intros Hnd. inversion Hnd as [|? ? Hnot Hnd']; subst.
    destruct (block_dest m i blk) as [d|]; simpl; [|discriminate].
    intros Hloop. rewrite (IH _ Hnd' Hloop).
    destruct (existsb (tuple_eqb k) (OD.keys cfg0)) eqn:Ek; simpl.
    + assert (Hin : In k (OD.keys cfg0)).
      { apply existsb_exists in Ek. destruct Ek as (k' & Hk' & E).
        apply tuple_eqb_eq in E. now subst. }
      now rewrite (od_keys_set_in _ _ tuple_eqb tuple_eqb_eq cfg0 k d Hin).
    + assert (Hout : ~ In k (OD.keys cfg0)).
      { intros Hin.
        assert (Ht : existsb (tuple_eqb k) (OD.keys cfg0) = true).
        { apply existsb_exists. exists k. split; [exact Hin|].
          now apply tuple_eqb_eq. }
        congruence. }
      rewrite (od_keys_set_notin _ _ tuple_eqb tuple_eqb_eq cfg0 k d Hout).
      rewrite <- app_assoc. simpl. do 2 f_equal.
      apply filter_ext_in. intros y Hy. rewrite existsb_app. simpl.
      rewrite orb_false_r.
      assert (Hyk : tuple_eqb y k = false).
      { apply (od_eqb_neq _ tuple_eqb tuple_eqb_eq). intros ->.
        contradiction. }
      now rewrite Hyk, orb_false_r.
Qed.

Lemma cfg_keys_eq (m : label_map) (cfg : cfg_map) :
  od_wf m -> create_cfg m = Py.Ok cfg ->
  OD.keys cfg
  = START :: filter (fun k => negb (tuple_eqb k START)) (OD.keys m).
Proof.
  intros Hwf Hcfg. unfold create_cfg in Hcfg.
  assert (Hnd : NoDup (map (fun e : nat * (tuple * block) => fst (snd e))
                           (Py.enumerate m)))
    by (rewrite enumerate_keys; exact Hwf).
  pose proof (cfg_loop_keys m (Py.enumerate m) _ cfg Hnd Hcfg) as E.
  rewrite enumerate_keys in E. rewrite E.
  assert (E0 : OD.keys (match OD.keys m with
                        | k :: _ => OD.set tuple_eqb [] START [Some k]
                        | [] => OD.set tuple_eqb [] START [Some TERM]
                        end : cfg_map) = [START])
    by (destruct (OD.keys m); reflexivity).
  rewrite E0. simpl. f_equal. apply filter_ext. intros k.
  now rewrite orb_false_r.
Qed.

(** One entry per key.  The keys of the built CFG, in insertion order, are
    [START] followed by the keys of the map in their order; a key of the map
    that is the tuple [('START',)] itself adds no second entry. *)
Theorem create_cfg_keys (m : label_map) (cfg : cfg_map) :
  od_wf m -> create_cfg m = Py.Ok cfg ->
  OD.keys cfg
  = START :: filter (fun k => negb (tuple_eqb k START)) (OD.keys m).
Proof.
  exact (cfg_keys_eq m cfg).
Qed.

Lemma create_cfg_keys_witness :
  OD.keys [(START, [Some ["A"]]); (["A"], [Some ["B"]]);
           (["B"], [Some TERM])]
  = START :: filter (fun k => negb (tuple_eqb k START)) [["A"]; ["B"]].
Proof.
  apply (create_cfg_keys [(["A"], [Op "nop"]); (["B"], [Op "ret"])]).
  - repeat constructor; simpl; intuition discriminate.
  - reflexivity.
Defined.

Lemma block_dest_successors (m : label_map) (i : nat) (blk : block)
      (d : list succ) (s : succ) :
  block_dest m i blk = Py.Ok d -> In s d ->
  s = None \/ s = Some TERM \/ exists K, s = Some K /\ In K (OD.keys m).
Proof.
  intros Hd Hs.
  assert (Halias : forall l, get_label_alias m l = s ->
            s = None \/ s = Some TERM
            \/ exists K, s = Some K /\ In K (OD.keys m)).
  { intros l E. destruct s as [K|]; [|now left]. right; right.
    exists K. split; [reflexivity|]. unfold get_label_alias in E.
    now apply find_some in E. }
  destruct (Py.last blk) as [li|] eqn:Hlast.
  2:{ unfold block_dest in Hd. rewrite Hlast in Hd. discriminate. }
  destruct (block_dest_cases m i blk li d Hd Hlast)
    as [[_ E] | [[_ (l & ls & _ & E)] | [[_ (ls & _ & E)] | [_ E]]]];
    subst d.
  - destruct Hs as [<- | []]. unfold next_node.
    destruct (nth_error (OD.keys m) (i + 1)) as [K|] eqn:En.
    + right; right. exists K. split; [reflexivity|].
      exact (nth_error_In _ _ En).
    + right; now left.
  - destruct Hs as [E | []]. exact (Halias l E).
  - apply in_map_iff in Hs. destruct Hs as (l & E & _). exact (Halias l E).
  - destruct Hs as [<- | []]. right; now left.
Qed.

Lemma cfg_successors_closed (m : label_map) (cfg : cfg_map) (k : tuple)
        (d : list succ) (s : succ) :
  od_wf m -> create_cfg m = Py.Ok cfg ->
  cfg_get cfg k = Some d -> In s d ->
  (s = None \/ s = Some TERM \/ exists K, s = Some K /\ In K (OD.keys cfg))
  /\ (targets_resolve m = true -> s <> None).
Proof.
  intros Hwf Hcfg Hget Hs.
  destruct (create_cfg_ok_spec m cfg Hwf Hcfg) as (_ & _ & Hkeys).
  assert (Hsub : forall K, In K (OD.keys m) -> In K (OD.keys cfg))
    by (intros K HK; apply Hkeys; now right).
  destruct (create_cfg_entry m cfg k d Hwf Hcfg Hget)
    as [(_ & _ & ->) | (i & blk & Hn & Hd)].
  - destruct Hs as [<- | []]. split; [|discriminate].
    unfold entry_node. destruct (OD.keys m) as [|k0 ks] eqn:E.
    + right; now left.
    + right; right. exists k0. split; [reflexivity|]. apply Hsub.
      now left.
  - split.
    + destruct (block_dest_successors m i blk d s Hd Hs)
        as [H | [H | (K & E & HK)]]; auto.
      right; right. exists K. auto.
    + intros Hres ->.
      destruct (Py.last blk) as [li|] eqn:Hlast.
      2:{ unfold block_dest in Hd. rewrite Hlast in Hd. discriminate. }
      assert (Hin : In (k, blk) m) by exact (nth_error_In _ _ Hn).
      assert (Hnone : forall l, In l (jump_targets li) ->
                                get_label_alias m l <> None).
      { intros l Hl E. apply get_label_alias_none in E.
        rewrite (targets_resolve_entry m k blk li l Hres Hin Hlast Hl) in E.
        discriminate. }
      destruct (block_dest_cases m i blk li d Hd Hlast)
        as [[_ E] | [[Ho (l & ls & Hl & E)] | [[Ho (ls & Hl & E)] | [_ E]]]];
        subst d.
      * destruct Hs as [E | []]. discriminate.
      * destruct Hs as [E | []]. apply (Hnone l); [|exact E].
        unfold jump_targets. rewrite Ho, Hl. simpl. now left.
      * apply in_map_iff in Hs. destruct Hs as (l & E & Hl').
        apply (Hnone l); [|exact E].
        unfold jump_targets. rewrite Ho, Hl. exact Hl'.
      * destruct Hs as [E | []]. discriminate.
Qed.

(** Edges stay inside the graph.  Every successor in the built CFG is a
    node of the CFG, or [TERM], or the [None] of an unresolved jump target;
    when all jump targets resolve there is no [None]. *)
Theorem create_cfg_successors (m : label_map) (cfg : cfg_map) (k : tuple)
        (d : list succ) (s : succ) :
  od_wf m -> create_cfg m = Py.Ok cfg ->
  cfg_get cfg k = Some d -> In s d ->
  (s = None \/ s = Some TERM \/ exists K, s = Some K /\ In K (OD.keys cfg))
  /\ (targets_resolve m = true -> s <> None).
Proof.
  exact (cfg_successors_closed m cfg k d s).
Qed.

Lemma create_cfg_successors_witness :
  Some ["L"] <> None.
Proof.
  apply (create_cfg_successors
           [(["block0"], [Jump "jmp" ["L"]]); (["L"], [Op "ret"])]
           [(START, [Some ["block0"]]); (["block0"], [Some ["L"]]);
            (["L"], [Some TERM])]
           ["block0"] [Some ["L"]] (Some ["L"])).
  - repeat constructor; simpl; intuition discriminate.
  - reflexivity.
  - reflexivity.
  - left; reflexivity.
  - reflexivity.
Defined.

(** Jumps and branches.  A block that ends in a ['jmp'] has the one
    successor that the lookup of the first element of ['labels'] gives,
    whatever follows it in ['labels'].  A block that ends in a ['br'] has
    one successor per element of ['labels'], in order, however many there
    are: none for an empty ['labels']. *)
Theorem create_cfg_jump_targets (m : label_map) (cfg : cfg_map) (k : tuple)
        (blk : block) (last_instr : instr) :
  od_wf m -> create_cfg m = Py.Ok cfg ->
  In (k, blk) m -> Py.last blk = Some last_instr ->
  (op last_instr = Some "jmp" ->
   exists l ls, labels last_instr = Some (l :: ls)
                /\ cfg_get cfg k = Some [get_label_alias m l])
  /\ (op last_instr = Some "br" ->
      exists ls, labels last_instr = Some ls
                 /\ cfg_get cfg k = Some (map (get_label_alias m) ls)).
Proof.
  intros Hwf Hcfg Hin Hlast.
  destruct (create_cfg_ok_spec m cfg Hwf Hcfg) as (Hentries & _ & _).
  destruct (In_nth_error _ _ Hin) as [i Hn].
  destruct (Hentries i k blk Hn) as (d & Hd & Hget).
  destruct (block_dest_cases m i blk last_instr d Hd Hlast)
    as [[Ht _] | [[Ho (l & ls & Hl & E)] | [[Ho (ls & Hl & E)] | [Ho _]]]];
    split; intros Hop; try congruence.
  - unfold is_terminator in Ht. rewrite Hop in Ht. discriminate.
  - unfold is_terminator in Ht. rewrite Hop in Ht. discriminate.
  - exists l, ls. split; [exact Hl | now subst d].
  - exists ls. split; [exact Hl | now subst d].
Qed.

Lemma create_cfg_jump_targets_witness :
  exists ls,
    labels (Jump "br" ["A"; "A"; "B"]) = Some ls
    /\ cfg_get [(START, [Some ["A"]]);
                (["A"], [Some ["A"]; Some ["A"]; Some ["B"]]);
                (["B"], [Some TERM])] ["A"]
       = Some (map (get_label_alias
                      [(["A"], [Jump "br" ["A"; "A"; "B"]]);
                       (["B"], [Op "ret"])]) ls).
Proof.
  apply (create_cfg_jump_targets
           [(["A"], [Jump "br" ["A"; "A"; "B"]]); (["B"], [Op "ret"])]
           [(START, [Some ["A"]]);
            (["A"], [Some ["A"]; Some ["A"]; Some ["B"]]);
            (["B"], [Some TERM])]
           ["A"] [Jump "br" ["A"; "A"; "B"]] (Jump "br" ["A"; "A"; "B"])).
  - repeat constructor; simpl; intuition discriminate.
  - reflexivity.
  - left; reflexivity.
  - reflexivity.
  - reflexivity.
Defined.

(** No node without a successor, but for one case.  A successor list of
    the built CFG is empty only for a block that ends in a ['br'] whose
    ['labels'] is the empty list. *)
Theorem create_cfg_empty_successors (m : label_map) (cfg : cfg_map)
        (k : tuple) :
  od_wf m -> create_cfg m = Py.Ok cfg -> cfg_get cfg k = Some [] ->
  exists blk last_instr,
    In (k, blk) m /\ Py.last blk = Some last_instr
    /\ op last_instr = Some "br" /\ labels last_instr = Some [].
Proof.
  intros Hwf Hcfg Hget.
  destruct (create_cfg_entry m cfg k [] Hwf Hcfg Hget)
    as [(_ & _ & E) | (i & blk & Hn & Hd)]; [discriminate|].
  destruct (Py.last blk) as [li|] eqn:Hlast.
  2:{ unfold block_dest in Hd. rewrite Hlast in Hd. discriminate. }
  exists blk, li. split; [exact (nth_error_In _ _ Hn)|].
  split; [exact Hlast|].
  destruct (block_dest_cases m i blk li [] Hd Hlast)
    as [[_ E] | [[_ (l & ls & _ & E)] | [[Ho (ls & Hl & E)] | [_ E]]]];
    try discriminate.
  split; [exact Ho|]. destruct ls; [exact Hl | discriminate].
Qed.

Lemma create_cfg_empty_successors_witness :
  exists blk last_instr,
    In (["A"], blk) [(["A"], [Jump "br" []])]
    /\ Py.last blk = Some last_instr
    /\ op last_instr = Some "br" /\ labels last_instr = Some [].
Proof.
  apply (create_cfg_empty_successors
           [(["A"], [Jump "br" []])]
           [(START, [Some ["A"]]); (["A"], [])]).
  - repeat constructor; simpl; intuition discriminate.
  - reflexivity.
  - reflexivity.
Defined.

End BuilderFacts.

(** ** Rendering *)

Section GraphvizFacts.

Variable str : succ -> string.

Lemma gv_nodes (ks : list tuple) (dot : list dot_call) :
  fold_left (gv_node_step str) ks dot
  = dot ++ map (fun k => dot_node (str (Some k))) ks.
Proof.
  revert dot. induction ks as [|k ks IH]; intros dot; simpl.
  - now rewrite app_nil_r.
  - rewrite IH. unfold gv_node_step. now rewrite <- app_assoc.
Qed.

Lemma gv_edge_step_spec (dot : list dot_call) (k : tuple) (d : list succ) :
  gv_edge_step str dot (k, d)
  = match d with
    | [] => Py.Raise Py.IndexError
    | _ :: _ => Py.Ok (dot ++ edge_calls str (k, d))
    end.
Proof.
  unfold gv_edge_step, edge_calls, list_index.
  destruct d as [|s0 [|s1 [|s2 d]]]; reflexivity.
Qed.

Lemma gv_edges_ok (cfg : cfg_map) (dot : list dot_call) :
  (forall k, ~ In (k, []) cfg) ->
  Py.for_each (gv_edge_step str) cfg dot
  = Py.Ok (dot ++ flat_map (edge_calls str) cfg).
Proof.
  revert dot. induction cfg as [|[k d] cfg IH]; intros dot Hne.
  - simpl. now rewrite app_nil_r.
  - cbn [Py.for_each flat_map]. rewrite gv_edge_step_spec.
    destruct d as [|s d].
    + exfalso. apply (Hne k). now left.
    + cbn [Py.bind]. rewrite IH.
      * now rewrite <- app_assoc.
      * intros k' Hin. apply (Hne k'). now right.
Qed.

Lemma gv_edges_raise (cfg : cfg_map) (dot : list dot_call) (k : tuple) :
  In (k, []) cfg ->
  Py.for_each (gv_edge_step str) cfg dot = Py.Raise Py.IndexError.
Proof.
  revert dot. induction cfg as [|[k' d] cfg IH]; intros dot;
    [contradiction|].
  intros Hin. cbn [Py.for_each]. rewrite gv_edge_step_spec.
  destruct d as [|s d]; [reflexivity|].
  cbn [Py.bind]. apply IH.
  destruct Hin as [E | Hin]; [discriminate | exact Hin].
Qed.

Lemma create_graphviz_calls_ok (function_name : string) (cfg : cfg_map) :
  (forall k, ~ In (k, []) cfg) ->
  create_graphviz str function_name cfg
  = Py.Ok ([Digraph function_name]
             ++ map (fun k => dot_node (str (Some k))) (OD.keys cfg)
             ++ [dot_node (str (Some TERM))]
             ++ flat_map (edge_calls str) cfg).
Proof.
  intros Hne. unfold create_graphviz.
  rewrite (gv_edges_ok cfg _ Hne), gv_nodes. now rewrite <- !app_assoc.
Qed.

(** What [create_graphviz] draws.  On a CFG without an empty successor
    list it declares one node per key, in order, then the node of [TERM],
    then for every entry, in order, its edges: the two edges marked [T] and
    [F] for a list of two successors, otherwise a single unmarked edge to the
    first successor, the others being left out.  On a CFG with an empty
    successor list, [successor[0]] raises [IndexError]. *)
Theorem create_graphviz_calls (function_name : string) (cfg : cfg_map) :
  ((forall k, ~ In (k, []) cfg) ->
   create_graphviz str function_name cfg
   = Py.Ok ([Digraph function_name]
              ++ map (fun k => dot_node (str (Some k))) (OD.keys cfg)
              ++ [dot_node (str (Some TERM))]
              ++ flat_map (edge_calls str) cfg))
  /\ ((exists k, In (k, []) cfg) ->
      create_graphviz str function_name cfg = Py.Raise Py.IndexError).
Proof.
  split.
  - exact (create_graphviz_calls_ok function_name cfg).
  - intros [k Hin]. unfold create_graphviz.
    exact (gv_edges_raise cfg _ k Hin).
Qed.

Lemma drawn_edges_app (a b : list dot_call) :
  drawn_edges (a ++ b) = drawn_edges a ++ drawn_edges b.
Proof. unfold drawn_edges. apply flat_map_app. Qed.

Lemma drawn_edges_nodes (ks : list tuple) :
  drawn_edges (map (fun k => dot_node (str (Some k))) ks) = [].
Proof. induction ks as [|k ks IH]; simpl; [reflexivity | exact IH]. Qed.

Lemma drawn_edges_calls (cfg : cfg_map) :
  (forall k d, In (k, d) cfg -> List.length d = 1 \/ List.length d = 2) ->
  drawn_edges (flat_map (edge_calls str) cfg) = cfg_edges str cfg.
Proof.
  induction cfg as [|[k d] cfg IH]; intros Hlen; simpl; [reflexivity|].
  rewrite drawn_edges_app, IH by (intros k' d' H; apply (Hlen k'); now right).
  unfold cfg_edges. simpl. f_equal.
  destruct (Hlen k d (or_introl eq_refl)) as [H | H];
    destruct d as [|s0 [|s1 [|s2 d]]]; try discriminate; reflexivity.
Qed.

Lemma create_cfg_arity (m : label_map) (cfg : cfg_map) :
  od_wf m -> br_two_targets m = true -> create_cfg m = Py.Ok cfg ->
  forall k d, In (k, d) cfg -> List.length d = 1 \/ List.length d = 2.
Proof.
  intros Hwf Hbr Hcfg k d Hin.
  assert (Hnd : NoDup (OD.keys cfg)).
  { rewrite (cfg_keys_eq m cfg Hwf Hcfg). constructor.
    - intros H. apply filter_In in H. destruct H as [_ H].
      assert (E : tuple_eqb START START = true) by now apply tuple_eqb_eq.
      rewrite E in H. discriminate.
    - apply NoDup_filter. exact Hwf. }
  pose proof (od_get_in _ _ tuple_eqb tuple_eqb_eq cfg k d Hnd Hin) as Hget.
  destruct (create_cfg_entry m cfg k d Hwf Hcfg Hget)
    as [(_ & _ & ->) | (i & blk & Hn & Hd)]; [now left|].
  destruct (Py.last blk) as [li|] eqn:Hlast.
  2:{ unfold block_dest in Hd. rewrite Hlast in Hd. discriminate. }
  destruct (block_dest_cases m i blk li d Hd Hlast)
    as [[_ E] | [[_ (l & ls & _ & E)] | [[Ho (ls & Hl & E)] | [_ E]]]];
    subst d; try (now left).
  destruct (br_two_targets_entry m k blk li ls Hbr
              (nth_error_In _ _ Hn) Hlast Ho Hl) as (t & f & ->).
  now right.
Qed.

(** Building, then rendering.  For a map on which [create_cfg] runs and
    whose final ['br'] instructions carry two jump targets, rendering the
    built CFG raises nothing, and the edges it draws are the edges of the
    CFG, each successor of each node once and in order. *)
Theorem create_graphviz_create_cfg (function_name : string)
        (m : label_map) :
  od_wf m -> cfg_buildable m = true -> br_two_targets m = true ->
  exists cfg dot,
    create_cfg m = Py.Ok cfg
    /\ create_graphviz str function_name cfg = Py.Ok dot
    /\ drawn_edges dot = cfg_edges str cfg.
Proof.
  intros Hwf Hb Hbr.
  destruct (create_cfg_spec m Hwf Hb) as (cfg & Hcfg & _).
  pose proof (create_cfg_arity m cfg Hwf Hbr Hcfg) as Hlen.
  assert (Hne : forall k, ~ In (k, []) cfg).
  { intros k Hin. destruct (Hlen k [] Hin); discriminate. }
  pose proof (create_graphviz_calls_ok function_name cfg Hne) as E.
  exists cfg. eexists. split; [exact Hcfg|]. split; [exact E|].
  rewrite !drawn_edges_app, drawn_edges_nodes. simpl.
  exact (drawn_edges_calls cfg Hlen).
Qed.

End GraphvizFacts.

Lemma create_graphviz_create_cfg_witness :
  exists cfg dot,
    create_cfg [(["A"], [Jump "br" ["A"; "B"]]); (["B"], [Op "ret"])]
    = Py.Ok cfg
    /\ create_graphviz (fun s => match s with
                                 | Some t => String.concat "," t
                                 | None => "None"
                                 end) "main" cfg = Py.Ok dot
    /\ drawn_edges dot
       = cfg_edges (fun s => match s with
                             | Some t => String.concat "," t
                             | None => "None"
                             end) cfg.
Proof.
  apply (create_graphviz_create_cfg
           (fun s => match s with
                     | Some t => String.concat "," t
                     | None => "None"
                     end)
           "main"
           [(["A"], [Jump "br" ["A"; "B"]]); (["B"], [Op "ret"])]).
  - repeat constructor; simpl; intuition discriminate.
  - reflexivity.
  - reflexivity.
Defined.

(** ** The passes chained *)

Section Pipeline.

Lemma create_cfg_buildable_ok (m : label_map) :
  cfg_buildable m = true -> exists cfg, create_cfg m = Py.Ok cfg.
Proof.
  intros Hb. unfold create_cfg.
  destruct (cfg_loop_spec m (Py.enumerate m)
              match OD.keys m with
              | k :: _ => OD.set tuple_eqb [] START [Some k]
              | [] => OD.set tuple_eqb [] START [Some TERM]
              end) as (cfg & Hcfg & _); [|eauto].
  intros [i [k blk]] He. apply enumerate_In in He. simpl.
  apply (cfg_buildable_entry m k blk Hb). eapply nth_error_In, He.
Qed.

Lemma block_body_incl (b : block) (i : instr) :
  In i (block_body b) -> In i b.
Proof.
  destruct b as [|x rest]; simpl; [tauto|].
  destruct (label x); simpl; tauto.
Qed.

Lemma block_body_markers (b : block) :
  markers_front b -> Forall (fun i => is_label_marker i = false) (block_body b).
Proof.
  unfold markers_front. destruct b as [|x rest]; simpl; [constructor|].
  intros Hrest. destruct (label x) eqn:Hl; [exact Hrest|].
  constructor; [|exact Hrest]. unfold is_label_marker. rewrite Hl.
  now destruct (op x).
Qed.

Lemma last_In (X : Type) (xs : list X) (x : X) :
  Py.last xs = Some x -> In x xs.
Proof.
  induction xs as [|y xs IH]; simpl; [discriminate|].
  destruct xs as [|z xs].
  - intros E. inversion E. now left.
  - intros H. right. now apply IH.
Qed.

(** The entries of the map of a stream: a body is a block of the stream
    without its leading label. *)
Lemma pipeline_entry (instructions : list instr) (out : label_map)
      (K : tuple) (body : block) :
  labels2blocks (get_basic_blocks instructions) = Py.Ok out ->
  In (K, body) out ->
  body <> []
  /\ Forall (fun i => is_label_marker i = false) body
  /\ forall i, In i body ->
       In i instructions /\ (op i <> None \/ label i <> None).
Proof.
  unfold labels2blocks. intros Hout Hin.
  destruct (l2b_loop (get_basic_blocks instructions) l2b_init) as [st|]
    eqn:Hloop; simpl in Hout; [|discriminate].
  inversion Hout; subst out.
  destruct (l2b_loop_entries _ l2b_init st Hloop K body Hin)
    as [[] | (_ & Hne & b & Hb & E)].
  split; [exact Hne|]. subst body.
  pose proof (partition_invariant instructions) as Hinv.
  rewrite Forall_forall in Hinv. destruct (Hinv b Hb) as [_ Hm].
  split; [now apply block_body_markers|].
  intros i Hi. apply (partition_copies instructions).
  apply in_concat. exists b. split; [exact Hb|]. now apply block_body_incl.
Qed.

(** The first two passes together.  On every instruction list, the
    resolver runs on the blocks of the partitioner; every body of the map
    is non-empty and holds no Label marker; when every instruction has
    exactly one of the two shapes, every instruction of a body is an
    Operation, so that the test ['op' in last_instr] of [create_cfg] never
    fails on it. *)
Theorem labels2blocks_get_basic_blocks (instructions : list instr) :
  exists out,
    labels2blocks (get_basic_blocks instructions) = Py.Ok out
    /\ forall K body,
         In (K, body) out ->
         body <> []
         /\ Forall (fun i => is_label_marker i = false) body
         /\ (Forall (fun i => one_shape i = true) instructions ->
             Forall (fun i => is_operation i = true) body
             /\ exists last_instr o,
                  Py.last body = Some last_instr
                  /\ op last_instr = Some o).
Proof.
  destruct (l2b_loop_total (get_basic_blocks instructions) l2b_init
              (get_basic_blocks_nonempty instructions)) as [st Hloop].
  exists (label_block_map st).
  assert (Hout : labels2blocks (get_basic_blocks instructions)
                 = Py.Ok (label_block_map st))
    by (unfold labels2blocks; now rewrite Hloop).
  split; [exact Hout|]. intros K body Hin.
  destruct (pipeline_entry instructions _ K body Hout Hin)
    as (Hne & Hm & Hmem).
  split; [exact Hne|]. split; [exact Hm|]. intros Hshape.
  assert (Hops : Forall (fun i => is_operation i = true) body).
  { rewrite Forall_forall in *. intros i Hi.
    specialize (Hm i Hi). destruct (Hmem i Hi) as [Hin' _].
    specialize (Hshape i Hin'). unfold one_shape in Hshape.
    rewrite Hm, orb_false_r in Hshape. exact Hshape. }
  split; [exact Hops|].
  destruct (Py.last body) as [li|] eqn:Hlast.
  - rewrite Forall_forall in Hops.
    specialize (Hops li (last_In _ body li Hlast)).
    unfold is_operation in Hops.
    destruct (op li) as [o|] eqn:Ho; [|discriminate].
    exists li, o. split; [reflexivity | exact Ho].
  - apply last_none in Hlast. contradiction.
Qed.

Lemma instr_runs_entry (body : block) :
  body <> [] -> Forall (fun i => instr_runs i = true) body ->
  entry_runs body = true.
Proof.
  intros Hne Hall. unfold entry_runs.
  destruct (Py.last body) as [li|] eqn:Hlast.
  - rewrite Forall_forall in Hall.
    specialize (Hall li (last_In _ body li Hlast)).
    exact Hall.
  - apply last_none in Hlast. contradiction.
Qed.

Lemma function_cfg_runs (instructions : list instr) :
  Forall (fun i => instr_runs i = true) instructions ->
  exists out cfg,
    labels2blocks (get_basic_blocks instructions) = Py.Ok out
    /\ create_cfg out = Py.Ok cfg
    /\ function_cfg instructions = Py.Ok cfg.
Proof.
  intros Hall.
  destruct (l2b_loop_total (get_basic_blocks instructions) l2b_init
              (get_basic_blocks_nonempty instructions)) as [st Hloop].
  assert (Hout : labels2blocks (get_basic_blocks instructions)
                 = Py.Ok (label_block_map st))
    by (unfold labels2blocks; now rewrite Hloop).
  destruct (create_cfg_buildable_ok (label_block_map st)) as [cfg Hcfg].
  { unfold cfg_buildable. apply forallb_forall. intros [K body] Hin. simpl.
    destruct (pipeline_entry instructions _ K body Hout Hin)
      as (Hne & _ & Hmem).
    apply instr_runs_entry; [exact Hne|].
    rewrite Forall_forall in *. intros i Hi. apply Hall.
    now apply Hmem. }
  exists (label_block_map st), cfg. split; [exact Hout|].
  split; [exact Hcfg|]. unfold function_cfg. now rewrite Hout.
Qed.

(** The passes of the main block run on every well-formed function.  When
    every ['jmp'] of the instruction list has a non-empty ['labels'] and
    every ['br'] has a ['labels'], the three passes return a CFG; so if they
    raise, some instruction of the list is a ['jmp'] or ['br'] that lacks its
    targets. *)
Theorem function_cfg_total (instructions : list instr) :
  (Forall (fun i => instr_runs i = true) instructions ->
   exists cfg, function_cfg instructions = Py.Ok cfg)
  /\ forall e,
       function_cfg instructions = Py.Raise e ->
       exists i, In i instructions /\ instr_runs i = false.
Proof.
  split.
  - intros Hall.
    destruct (function_cfg_runs instructions Hall) as (_ & cfg & _ & _ & E).
    eauto.
  - intros e He.
    destruct (forallb instr_runs instructions) eqn:Hf.
    + rewrite forallb_forall in Hf.
      destruct (function_cfg_runs instructions) as (_ & cfg & _ & _ & E).
      * apply Forall_forall. exact Hf.
      * congruence.
    + clear He. induction instructions as [|i rest IH]; [discriminate|].
      simpl in Hf. apply andb_false_iff in Hf. destruct Hf as [Hf | Hf].
      * exists i. split; [now left | exact Hf].
      * destruct (IH Hf) as (x & Hx & Hr). exists x.
        split; [now right | exact Hr].
Qed.

(** A label of the stream is an alias of a key, unless it is trailing. *)
Lemma label_covered (instructions : list instr) (out : label_map)
      (x : instr) (l : string) :
  labels2blocks (get_basic_blocks instructions) = Py.Ok out ->
  In x instructions -> label x = Some l ->
  In l (block_labels 0 (trailing_label_only (get_basic_blocks instructions)))
  \/ exists K, In K (OD.keys out) /\ In l K.
Proof.
  unfold labels2blocks. intros Hout Hx Hl.
  destruct (l2b_loop (get_basic_blocks instructions) l2b_init) as [st|]
    eqn:Hloop; simpl in Hout; [|discriminate].
  inversion Hout; subst out.
  destruct (get_basic_blocks_label_head instructions x l Hx Hl)
    as (b & Hb & Hhd).
  pose proof (block_labels_head _ 0 b x l Hb Hhd Hl) as Hlab.
  assert (Hal : In l (aliases st))
    by (apply (l2b_loop_aliases _ l2b_init st l Hloop); now right).
  unfold aliases in Hal. apply in_app_iff in Hal.
  destruct Hal as [Hal | Hal].
  - right. apply in_concat in Hal. destruct Hal as (K & HK & HlK). eauto.
  - left. now rewrite <- (l2b_init_carry _ st Hloop).
Qed.

(** A closed graph for a closed program.  When moreover every jump target
    of the list is the label of an instruction of the list, and not one of
    the trailing labels, every successor in the CFG of the function is
    [TERM] or a node of the CFG: no edge leads to [None]. *)
Theorem function_cfg_closed (instructions : list instr) :
  Forall (fun i => instr_runs i = true) instructions ->
  (forall j l,
      In j instructions -> In l (jump_targets j) ->
      (exists x, In x instructions /\ label x = Some l)
      /\ ~ In l (block_labels 0 (trailing_label_only
                                   (get_basic_blocks instructions)))) ->
  exists cfg,
    function_cfg instructions = Py.Ok cfg
    /\ forall k d s,
         cfg_get cfg k = Some d -> In s d ->
         s = Some TERM \/ exists K, s = Some K /\ In K (OD.keys cfg).
Proof.
  intros Hall Htargets.
  destruct (function_cfg_runs instructions Hall)
    as (out & cfg & Hout & Hcfg & Hfun).
  exists cfg. split; [exact Hfun|].
  assert (Hwf : od_wf out).
  { unfold labels2blocks in Hout.
    destruct (l2b_loop (get_basic_blocks instructions) l2b_init) as [st|]
      eqn:Hloop; simpl in Hout; [|discriminate].
    inversion Hout; subst out.
    exact (l2b_loop_from_init_wf _ st Hloop). }
  assert (Hres : targets_resolve out = true).
  { unfold targets_resolve. apply forallb_forall. intros [K body] Hin.
    simpl. destruct (Py.last body) as [li|] eqn:Hlast; [|reflexivity].
    apply forallb_forall. intros l Hl.
    destruct (pipeline_entry instructions out K body Hout Hin)
      as (_ & _ & Hmem).
    destruct (Hmem li (last_In _ body li Hlast)) as [Hli _].
    destruct (Htargets li l Hli Hl) as [(x & Hx & Hxl) Hnot].
    destruct (label_covered instructions out x l Hout Hx Hxl)
      as [Ht | (K' & HK' & HlK')]; [contradiction|].
    unfold resolves. apply existsb_exists. exists K'.
    split; [exact HK' | now apply str_in_In]. }
  intros k d s Hget Hs.
  destruct (cfg_successors_closed out cfg k d s Hwf Hcfg Hget Hs)
    as [[Hnone | H] Hsome]; [|exact H].
  exfalso. exact (Hsome Hres Hnone).
Qed.

Lemma function_cfg_closed_witness :
  exists cfg,
    function_cfg [Op "const"; Jump "jmp" ["L"]; Label "L"; Op "ret"]
    = Py.Ok cfg
    /\ forall k d s,
         cfg_get cfg k = Some d -> In s d ->
         s = Some TERM \/ exists K, s = Some K /\ In K (OD.keys cfg).
Proof.
  apply (function_cfg_closed
           [Op "const"; Jump "jmp" ["L"]; Label "L"; Op "ret"]).
  - repeat constructor.
  - intros j l [<- | [<- | [<- | [<- | []]]]] Hl; simpl in Hl;
      try contradiction.
    destruct Hl as [<- | []]. split.
    + exists (Label "L"). simpl. tauto.
    + vm_compute. tauto.
Defined.

End Pipeline.
